(** * Resume extraction, role ranking and the interview session of
      [streamlit_app.py], embedded in Rocq.

    The three pieces of logic of the application are modelled from the
    Python source:
    - [extract_resume_details] (resume section extraction);
    - [match_resume_to_roles] (TF-IDF / cosine ranking of roles), with
      the parts it delegates to scikit-learn and numpy written out;
    - the interview session kept in [st.session_state] by [main]
      (the "Start Interview" and "Submit Response" buttons). *)

From Stdlib Require Import String Ascii List Bool Arith Lia.
From Stdlib Require Import Sorting.Permutation Sorting.Sorted FunctionalExtensionality.
From Stdlib Require Import Reals ZArith Lra.
Import ListNotations.

(* ------------------------------------------------------------------ *)
(** ** Python string helpers (ASCII model) *)

Module Py.

(** Characters for which Python's [str.isspace] holds, restricted to
    ASCII: tab, line feed, vertical tab, form feed, carriage return,
    the four separators 0x1c..0x1f, and space. *)
Definition is_space (c : ascii) : bool :=
  let n := nat_of_ascii c in
  ((9 <=? n) && (n <=? 13)) || ((28 <=? n) && (n <=? 32)).

Fixpoint lstrip (s : string) : string :=
  match s with
  | EmptyString => EmptyString
  | String c r => if is_space c then lstrip r else s
  end.

Definition rstrip (s : string) : string :=
  string_of_list_ascii (rev (list_ascii_of_string
    (lstrip (string_of_list_ascii (rev (list_ascii_of_string s)))))).

(** [str.strip()] *)
Definition strip (s : string) : string := rstrip (lstrip s).

(** [str.lower()] on ASCII letters. *)
Definition lower_char (c : ascii) : ascii :=
  let n := nat_of_ascii c in
  if (65 <=? n) && (n <=? 90) then ascii_of_nat (n + 32) else c.

Fixpoint lower (s : string) : string :=
  match s with
  | EmptyString => EmptyString
  | String c r => String (lower_char c) (lower r)
  end.

(** [s.startswith(p)] *)
Definition startswith (s p : string) : bool := String.prefix p s.

(** [s.split(sep)] for a one-character separator: always at least one
    piece, empty pieces kept. *)
Fixpoint split (sep : ascii) (s : string) : list string :=
  match s with
  | EmptyString => [EmptyString]
  | String c r =>
      if Ascii.eqb c sep then EmptyString :: split sep r
      else match split sep r with
           | w :: ws => String c w :: ws
           | [] => [String c EmptyString]
           end
  end.

(** [sep.join(l)] *)
Definition join (sep : string) (l : list string) : string := String.concat sep l.

(** Truthiness of a Python string. *)
Definition truthy (s : string) : bool :=
  match s with EmptyString => false | _ => true end.

Definition newline : ascii := ascii_of_nat 10.
Definition nl : string := String newline EmptyString.

End Py.

(* ------------------------------------------------------------------ *)
(** ** [extract_resume_details] *)

Module Extract.

(** [summary_sections], in dictionary (insertion) order. *)
Definition summary_sections : list (string * list string) :=
  [ ("Skills", ["Skills"; "Technical Skills"; "Core Competencies"]);
    ("Achievements", ["Achievements"; "Accomplishments"; "Key Highlights"]);
    ("Experience", ["Experience"; "Work Experience"; "Professional Experience"]);
    ("Projects", ["Projects"; "Key Projects"; "Academic Projects"]) ]%string.

(** The result: the dictionary [formatted_output] (an association list
    in insertion order) or the sentinel string. *)
Inductive result :=
| Sections (m : list (string * string))
| Sentinel (msg : string).

Definition sentinel_msg : string :=
  "No structured data found. Please label resume sections clearly.".

(** [any(line.lower().startswith(keyword.lower()) for keyword in keywords)] *)
Definition matches (line : string) (keywords : list string) : bool :=
  existsb (fun k => Py.startswith (Py.lower line) (Py.lower k)) keywords.

(** The inner [for section, keywords in summary_sections.items()] loop
    with its [break]: the first section whose keywords match, if any. *)
Fixpoint find_section (line : string) (secs : list (string * list string))
  : option string :=
  match secs with
  | [] => None
  | (section, keywords) :: rest =>
      if matches line keywords then Some section else find_section line rest
  end.

(** [extracted_info[key].append(line)] *)
Fixpoint append_to (key line : string) (info : list (string * list string))
  : list (string * list string) :=
  match info with
  | [] => []
  | (k, v) :: rest =>
      if String.eqb k key then (k, v ++ [line]) :: rest
      else (k, v) :: append_to key line rest
  end.

(** One iteration of [for line in lines]: state is
    [(extracted_info, current_section)]. *)
Definition step (st : list (string * list string) * option string)
  (raw : string) : list (string * list string) * option string :=
  let (info, current_section) := st in
  let line := Py.strip raw in
  match find_section line summary_sections with
  | Some section => (info, Some section)
  | None =>
      match current_section with
      | Some sec => (append_to sec line info, current_section)
      | None => (info, current_section)
      end
  end.

Definition init_info : list (string * list string) :=
  map (fun kv => (fst kv, [])) summary_sections.

(** [{key: "\n".join(value) for key, value in extracted_info.items() if value}] *)
Definition format (info : list (string * list string)) : list (string * string) :=
  map (fun kv => (fst kv, Py.join Py.nl (snd kv)))
      (filter (fun kv => match snd kv with [] => false | _ => true end) info).

Definition extract_resume_details (text : string) : result :=
  let lines := Py.split Py.newline text in
  let (info, _) := fold_left step lines (init_info, None) in
  match format info with
  | [] => Sentinel sentinel_msg
  | out => Sections out
  end.

End Extract.

(* ------------------------------------------------------------------ *)
(** ** The interview session of [main] *)

Module Session.

Inductive speaker := Interviewer | Candidate.

(** The keys of [st.session_state] used by the interview:
    [conversation], [role], [current_question] and [transcripts] (the
    question queue). [None] stands for Python's [None]. *)
Record state := mk_state {
  conversation : list (speaker * string);
  role : option string;
  current_question : option string;
  transcripts : list string
}.

(** The values set at the top of [main] when the keys are missing. *)
Definition init : state := mk_state [] None None [].

(** [st.session_state.get("current_question")] is truthy. *)
Definition pending (s : state) : bool :=
  match current_question s with
  | Some q => Py.truthy q
  | None => false
  end.

(** The "Start Interview" button (lines 203-210). [questions] is the list
    the code builds and stores in [transcripts]; the head is popped into
    [current_question] only when that list is non-empty. *)
Definition start (s : state) (selected_role : string) (questions : list string)
  : state :=
  if Py.truthy selected_role then
    match questions with
    | q :: rest => mk_state [(Interviewer, q)] (Some selected_role) (Some q) rest
    | [] => mk_state [] (Some selected_role) (current_question s) []
    end
  else s.

(** The "Submit Response" button (lines 212-225); the button exists only
    while a question is pending. *)
Definition submit_answer (s : state) (answer : string) : state :=
  if pending s then
    if Py.truthy (Py.strip answer) then
      let conv := conversation s ++ [(Candidate, answer)] in
      match transcripts s with
      | q :: rest => mk_state (conv ++ [(Interviewer, q)]) (role s) (Some q) rest
      | [] => mk_state conv (role s) None []
      end
    else s
  else s.

Inductive op := Start (r : string) (qs : list string) | Submit (a : string).

Definition exec (s : state) (o : op) : state :=
  match o with
  | Start r qs => start s r qs
  | Submit a => submit_answer s a
  end.

Definition run (s : state) (ops : list op) : state := fold_left exec ops s.

(** The spec's [Completed] state. *)
Definition completed (s : state) : Prop :=
  role s <> None /\ transcripts s = [] /\ current_question s = None.

(** The log [(Interviewer, q1); (Candidate, a1); ...] of a full interview. *)
Fixpoint interleave (qs answers : list string) : list (speaker * string) :=
  match qs, answers with
  | q :: qs', a :: as' => (Interviewer, q) :: (Candidate, a) :: interleave qs' as'
  | _, _ => []
  end.

(** The log alternates speakers, beginning with [Interviewer]. *)
Fixpoint alternates (expected : speaker) (log : list (speaker * string)) : bool :=
  match log with
  | [] => true
  | (sp, _) :: rest =>
      match sp, expected with
      | Interviewer, Interviewer => alternates Candidate rest
      | Candidate, Candidate => alternates Interviewer rest
      | _, _ => false
      end
  end.


End Session.

(* ------------------------------------------------------------------ *)
(** ** [match_resume_to_roles] *)

Module Rank.

(** A row of the job data frame; [None] is a missing cell (NaN). *)
Record row := mk_row {
  job_title : option string;
  job_description_text : option string
}.

Record data_frame := mk_df {
  columns : list string;
  rows : list row
}.

(** Exceptions raised on the way. *)
Inductive exc := ValueError (msg : string).

Inductive outcome (A : Type) := Ok (a : A) | Raise (e : exc).
Arguments Ok {A} a.
Arguments Raise {A} e.

(** *** scikit-learn's [TfidfVectorizer(stop_words="english")] *)

(** [\w] on ASCII: letters, digits and underscore. *)
Definition is_word_char (c : ascii) : bool :=
  let n := nat_of_ascii c in
  ((48 <=? n) && (n <=? 57)) || ((65 <=? n) && (n <=? 90)) ||
  ((97 <=? n) && (n <=? 122)) || (n =? 95).

(** Maximal runs of word characters. *)
Fixpoint runs (l : list ascii) (cur : list ascii) : list (list ascii) :=
  match l with
  | [] => [rev cur]
  | c :: r => if is_word_char c then runs r (c :: cur) else rev cur :: runs r []
  end.

(** The default [token_pattern] [(?u)\b\w\w+\b] applied to the
    lower-cased document, then the stop-word filter. *)
Definition tokens (stop_words : list string) (doc : string) : list string :=
  filter (fun w => negb (existsb (String.eqb w) stop_words))
    (filter (fun w => 2 <=? String.length w)
       (map string_of_list_ascii (runs (list_ascii_of_string (Py.lower doc)) []))).

Definition vocabulary (stop_words : list string) (docs : list string) : list string :=
  nodup string_dec (concat (map (tokens stop_words) docs)).

Definition empty_vocabulary_msg : string :=
  "empty vocabulary; perhaps the documents only contain stop words".

Local Open Scope R_scope.

Definition dot (u v : list R) : R :=
  fold_right Rplus 0 (map (fun p => fst p * snd p) (combine u v)).

(** [sklearn.preprocessing.normalize] with [norm="l2"]: a zero row is
    left unchanged. *)
Definition l2_normalize (v : list R) : list R :=
  let n := sqrt (dot v v) in
  if Req_dec_T n 0 then v else map (fun x => x / n) v.

(** Document frequency and the smoothed idf [ln((1+n)/(1+df)) + 1]. *)
Definition df (t : string) (dts : list (list string)) : nat :=
  length (filter (fun d => existsb (String.eqb t) d) dts).

Definition idf (n dft : nat) : R := ln (INR (1 + n) / INR (1 + dft)) + 1.

Definition tfidf_row (vocab : list string) (dts : list (list string))
  (d : list string) : list R :=
  map (fun t => INR (count_occ string_dec d t) * idf (length dts) (df t dts)) vocab.

(** [fit_transform]: raises when no token survives the analyzer. *)
Definition fit_transform (stop_words : list string) (docs : list string)
  : outcome (list (list R)) :=
  let dts := map (tokens stop_words) docs in
  match vocabulary stop_words docs with
  | [] => Raise (ValueError empty_vocabulary_msg)
  | vocab => Ok (map (fun d => l2_normalize (tfidf_row vocab dts d)) dts)
  end.

(** [cosine_similarity(x, ys).flatten()] *)
Definition cosine_similarity (x : list R) (ys : list (list R)) : list R :=
  map (fun y => dot (l2_normalize x) (l2_normalize y)) ys.

(** *** numpy's [argsort] and Python slicing *)

Local Close Scope R_scope.

(** [similarity_scores.argsort()] runs numpy's default sort
    ([kind="quicksort"]) on the indices [0 .. n-1]: [aquicksort_] of
    [npysort/quicksort.cpp], an introsort. Segments of more than
    [SMALL_QUICKSORT] entries are partitioned around a median of three;
    smaller ones are insertion-sorted; when the depth budget
    [2 * floor(log2 n)] is used up the segment is heap-sorted
    ([aheapsort_]). The array of indices [tosort] is a [list nat] below,
    read with [get] and written with [upd]; numpy compares the keys
    [v[i] < v[j]] ([Tag::less] on doubles, NaN apart), passed in as
    [less]. On x86 CPUs with AVX-512 (and, in recent releases, AVX2)
    numpy can dispatch [argsort] to the x86-simd-sort kernels instead;
    those are not modelled. *)

Definition rlt (x y : R) : bool := if Rlt_dec x y then true else false.

(** [tosort[i]] *)
Definition get (a : list nat) (i : nat) : nat := nth i a 0.

(** [tosort[i] = x] *)
Fixpoint upd (a : list nat) (i x : nat) : list nat :=
  match a, i with
  | [], _ => []
  | _ :: r, 0 => x :: r
  | y :: r, S i' => y :: upd r i' x
  end.

(** [INTP_SWAP(tosort[i], tosort[j])] *)
Definition swap (a : list nat) (i j : nat) : list nat :=
  upd (upd a i (get a j)) j (get a i).

Definition SMALL_QUICKSORT : nat := 16.

Section Aquicksort.

(** [Tag::less(v[i], v[j])] on the indices [i] and [j]. *)
Variable less : nat -> nat -> bool.

(** The inner loop of the insertion sort, with [pj = pl + k]:
    [while (pj > pl && Tag::less(vp, v[*pk])) { *pj-- = *pk--; } *pj = vi;] *)
Fixpoint shift_down (a : list nat) (vi pl k : nat) : list nat :=
  match k with
  | 0 => upd a pl vi
  | S k' =>
      if less vi (get a (pl + k'))
      then shift_down (upd a (pl + k) (get a (pl + k'))) vi pl k'
      else upd a (pl + k) vi
  end.

(** [for (pi = pl + 1; pi <= pr; ++pi) { vi = *pi; ... }] with
    [pi = pl + k] and [count] turns left. *)
Fixpoint insertion_from (a : list nat) (pl k count : nat) : list nat :=
  match count with
  | 0 => a
  | S c => insertion_from (shift_down a (get a (pl + k)) pl k) pl (S k) c
  end.

(** The insertion sort of [aquicksort_] on the segment [[pl, pr]]. *)
Definition insertion_sort (a : list nat) (pl pr : nat) : list nat :=
  insertion_from a pl 1 (pr - pl).

(** [aheapsort_] on the [n] entries from [pl]: with [a = tosort - 1],
    [a[i]] is the entry at [pl + i - 1]. *)
Definition hget (a : list nat) (pl i : nat) : nat := get a (pl + i - 1).
Definition hupd (a : list nat) (pl i x : nat) : list nat := upd a (pl + i - 1) x.

(** The sift-down loop of [aheapsort_]:
    [for (; j <= n;) { if (j < n && Tag::less(v[a[j]], v[a[j+1]])) j += 1;
       if (Tag::less(v[tmp], v[a[j]])) { a[i] = a[j]; i = j; j += j; }
       else break; } a[i] = tmp;]
    [j] grows at each turn and stays at most [n]: [n] turns of fuel are
    never used up. *)
Fixpoint sift (fuel : nat) (a : list nat) (pl n tmp i j : nat) : list nat :=
  match fuel with
  | 0 => hupd a pl i tmp
  | S f =>
      if j <=? n then
        let j := if (j <? n) && less (hget a pl j) (hget a pl (j + 1)) then j + 1 else j in
        if less tmp (hget a pl j)
        then sift f (hupd a pl i (hget a pl j)) pl n tmp j (j + j)
        else hupd a pl i tmp
      else hupd a pl i tmp
  end.

(** [for (l = n >> 1; l > 0; --l) { tmp = a[l]; sift from i = l, j = 2l }] *)
Fixpoint heapify (a : list nat) (pl n l : nat) : list nat :=
  match l with
  | 0 => a
  | S l' => heapify (sift n a pl n (hget a pl l) l (l + l)) pl n l'
  end.

(** [for (; n > 1;) { tmp = a[n]; a[n] = a[1]; n -= 1; sift from i = 1, j = 2 }] *)
Fixpoint sort_heap (a : list nat) (pl n : nat) : list nat :=
  match n with
  | 0 => a
  | S m =>
      match m with
      | 0 => a
      | S _ => sort_heap (sift m (hupd a pl n (hget a pl 1)) pl m (hget a pl n) 1 2) pl m
      end
  end.

Definition aheapsort (a : list nat) (pl n : nat) : list nat :=
  sort_heap (heapify a pl n (n / 2)) pl n.

(** [do { ++pi; } while (Tag::less(v[*pi], vp));], [vp = v[piv]]; the
    fuel is never used up (see [scan_up_spec]). *)
Fixpoint scan_up (fuel : nat) (a : list nat) (piv pi : nat) : nat :=
  match fuel with
  | 0 => pi
  | S f => if less (get a (S pi)) piv then scan_up f a piv (S pi) else S pi
  end.

(** [do { --pj; } while (Tag::less(vp, v[*pj]));] *)
Fixpoint scan_down (fuel : nat) (a : list nat) (piv pj : nat) : nat :=
  match fuel with
  | 0 => pj
  | S f => if less piv (get a (pj - 1)) then scan_down f a piv (pj - 1) else pj - 1
  end.

(** [for (;;) { scan up; scan down; if (pi >= pj) break; INTP_SWAP( *pi, *pj); }] *)
Fixpoint partition_loop (fuel : nat) (a : list nat) (piv pi pj : nat) : list nat * nat :=
  match fuel with
  | 0 => (a, pi)
  | S f =>
      let pi := scan_up (length a) a piv pi in
      let pj := scan_down (length a) a piv pj in
      if pj <=? pi then (a, pi) else partition_loop f (swap a pi pj) piv pi pj
  end.

(** One partition of [[pl, pr]]: median of three at [pl], [pm], [pr], the
    pivot moved to [pr - 1], the loop above, the pivot moved to its place
    [pi]. Returns the array and [pi]. *)
Definition qs_partition (a : list nat) (pl pr : nat) : list nat * nat :=
  let pm := pl + (pr - pl) / 2 in
  let a := if less (get a pm) (get a pl) then swap a pm pl else a in
  let a := if less (get a pr) (get a pm) then swap a pr pm else a in
  let a := if less (get a pm) (get a pl) then swap a pm pl else a in
  let piv := get a pm in
  let a := swap a pm (pr - 1) in
  let (a, pi) := partition_loop (length a) a piv pl (pr - 1) in
  (swap a pi (pr - 1), pi).

(** [while ((pr - pl) > SMALL_QUICKSORT) { partition;
       push the larger part with [*psdepth++ = --cdepth];
       go on with the smaller one }]; each turn partitions, so [n] turns
    of fuel are never used up. Returns the array, the segment left and
    the depth and the stack. *)
Fixpoint qs_while (fuel : nat) (a : list nat) (pl pr : nat) (cdepth : Z)
  (stack : list (nat * nat * Z)) : list nat * nat * nat * Z * list (nat * nat * Z) :=
  match fuel with
  | 0 => (a, pl, pr, cdepth, stack)
  | S f =>
      if SMALL_QUICKSORT <? pr - pl then
        let (a, pi) := qs_partition a pl pr in
        let cdepth := (cdepth - 1)%Z in
        if pi - pl <? pr - pi
        then qs_while f a pl (pi - 1) cdepth ((pi + 1, pr, cdepth) :: stack)
        else qs_while f a (pi + 1) pr cdepth ((pl, pi - 1, cdepth) :: stack)
      else (a, pl, pr, cdepth, stack)
  end.

(** The outer loop of [aquicksort_]:
    [for (;;) { if (cdepth < 0) { aheapsort_(pl, pr - pl + 1); goto stack_pop; }
       while (...) {...}; insertion sort of [pl, pr];
       stack_pop: if (sptr == stack) break; pop pr, pl, cdepth; }].
    Each turn ends a segment, and there are at most [n] of them, so
    [n + 1] turns of fuel are never used up. *)
Fixpoint qs_loop (fuel : nat) (a : list nat) (pl pr : nat) (cdepth : Z)
  (stack : list (nat * nat * Z)) : list nat :=
  match fuel with
  | 0 => a
  | S f =>
      let '(a, stack) :=
        if (cdepth <? 0)%Z then (aheapsort a pl (pr - pl + 1), stack)
        else
          let '(a, pl, pr, _, stack) := qs_while (length a) a pl pr cdepth stack in
          (insertion_sort a pl pr, stack) in
      match stack with
      | [] => a
      | (pl, pr, cdepth) :: stack => qs_loop f a pl pr cdepth stack
      end
  end.

(** [aquicksort_(v, tosort, num)] on [tosort = [0, ..., num - 1]]:
    [pl = tosort], [pr = tosort + num - 1],
    [cdepth = npy_get_msb(num) * 2]. *)
Definition aquicksort (num : nat) : list nat :=
  qs_loop (S num) (seq 0 num) 0 (num - 1) (Z.of_nat (2 * Nat.log2 num)) [].

End Aquicksort.

(** [scores.argsort()] *)
Definition argsort (scores : list R) : list nat :=
  aquicksort (fun i j => rlt (nth i scores 0%R) (nth j scores 0%R)) (length scores).


(** [a[start:]] with Python's treatment of negative and too large starts. *)
Definition slice_from {A} (l : list A) (start : Z) : list A :=
  let n := Z.of_nat (length l) in
  let s := if (start <? 0)%Z then Z.max 0 (n + start) else Z.min start n in
  skipn (Z.to_nat s) l.

(** scikit-learn's [ENGLISH_STOP_WORDS], used by [stop_words="english"]. *)
Definition english_stop_words : list string := [
  "a"; "about"; "above"; "across"; "after"; "afterwards"; "again"; "against";
  "all"; "almost"; "alone"; "along"; "already"; "also"; "although"; "always";
  "am"; "among"; "amongst"; "amoungst"; "amount"; "an"; "and"; "another";
  "any"; "anyhow"; "anyone"; "anything"; "anyway"; "anywhere"; "are";
  "around"; "as"; "at"; "back"; "be"; "became"; "because"; "become";
  "becomes"; "becoming"; "been"; "before"; "beforehand"; "behind"; "being";
  "below"; "beside"; "besides"; "between"; "beyond"; "bill"; "both";
  "bottom"; "but"; "by"; "call"; "can"; "cannot"; "cant"; "co"; "con";
  "could"; "couldnt"; "cry"; "de"; "describe"; "detail"; "do"; "done";
  "down"; "due"; "during"; "each"; "eg"; "eight"; "either"; "eleven"; "else";
  "elsewhere"; "empty"; "enough"; "etc"; "even"; "ever"; "every"; "everyone";
  "everything"; "everywhere"; "except"; "few"; "fifteen"; "fifty"; "fill";
  "find"; "fire"; "first"; "five"; "for"; "former"; "formerly"; "forty";
  "found"; "four"; "from"; "front"; "full"; "further"; "get"; "give"; "go";
  "had"; "has"; "hasnt"; "have"; "he"; "hence"; "her"; "here"; "hereafter";
  "hereby"; "herein"; "hereupon"; "hers"; "herself"; "him"; "himself"; "his";
  "how"; "however"; "hundred"; "i"; "ie"; "if"; "in"; "inc"; "indeed";
  "interest"; "into"; "is"; "it"; "its"; "itself"; "keep"; "last"; "latter";
  "latterly"; "least"; "less"; "ltd"; "made"; "many"; "may"; "me";
  "meanwhile"; "might"; "mill"; "mine"; "more"; "moreover"; "most"; "mostly";
  "move"; "much"; "must"; "my"; "myself"; "name"; "namely"; "neither";
  "never"; "nevertheless"; "next"; "nine"; "no"; "nobody"; "none"; "noone";
  "nor"; "not"; "nothing"; "now"; "nowhere"; "of"; "off"; "often"; "on";
  "once"; "one"; "only"; "onto"; "or"; "other"; "others"; "otherwise"; "our";
  "ours"; "ourselves"; "out"; "over"; "own"; "part"; "per"; "perhaps";
  "please"; "put"; "rather"; "re"; "same"; "see"; "seem"; "seemed";
  "seeming"; "seems"; "serious"; "several"; "she"; "should"; "show"; "side";
  "since"; "sincere"; "six"; "sixty"; "so"; "some"; "somehow"; "someone";
  "something"; "sometime"; "sometimes"; "somewhere"; "still"; "such";
  "system"; "take"; "ten"; "than"; "that"; "the"; "their"; "them";
  "themselves"; "then"; "thence"; "there"; "thereafter"; "thereby";
  "therefore"; "therein"; "thereupon"; "these"; "they"; "thick"; "thin";
  "third"; "this"; "those"; "though"; "three"; "through"; "throughout";
  "thru"; "thus"; "to"; "together"; "too"; "top"; "toward"; "towards";
  "twelve"; "twenty"; "two"; "un"; "under"; "until"; "up"; "upon"; "us";
  "very"; "via"; "was"; "we"; "well"; "were"; "what"; "whatever"; "when";
  "whence"; "whenever"; "where"; "whereafter"; "whereas"; "whereby";
  "wherein"; "whereupon"; "wherever"; "whether"; "which"; "while"; "whither";
  "who"; "whoever"; "whole"; "whom"; "whose"; "why"; "will"; "with";
  "within"; "without"; "would"; "yet"; "you"; "your"; "yours"; "yourself";
  "yourselves" ]%string.

(** *** The function itself *)

(** [job_df["job_description_text"].fillna("").tolist()] *)
Definition descriptions_of (job_df : data_frame) : list string :=
  map (fun r => match job_description_text r with
                | Some d => d | None => ""%string end) (rows job_df).

(** [job_df["job_title"].fillna("Unknown Role").tolist()] *)
Definition roles_of (job_df : data_frame) : list string :=
  map (fun r => match job_title r with
                | Some t => t | None => "Unknown Role"%string end) (rows job_df).

(** The early-return guard of line 81. *)
Definition degenerate (job_df : data_frame) : bool :=
  (match rows job_df with [] => true | _ => false end)
  || (match columns job_df with [] => true | _ => false end)
  || negb (existsb (String.eqb "job_description_text") (columns job_df))
  || negb (existsb (String.eqb "job_title") (columns job_df)).

(** [cosine_similarity(tfidf_matrix[-1], tfidf_matrix[:-1]).flatten()] *)
Definition scores_of (tfidf_matrix : list (list R)) : list R :=
  cosine_similarity (last tfidf_matrix []) (removelast tfidf_matrix).

(** [similarity_scores.argsort()[-top_n:][::-1]] *)
Definition top_indices_of (similarity_scores : list R) (top_n : Z) : list nat :=
  rev (slice_from (argsort similarity_scores) (- top_n)).

Definition match_resume_to_roles_with (stop_words : list string)
  (resume_text : string) (job_df : data_frame) (top_n : Z)
  : outcome (list string) :=
  if degenerate job_df then Ok []
  else
    let descriptions := descriptions_of job_df in
    let roles := roles_of job_df in
    let corpus := descriptions ++ [resume_text] in
    match fit_transform stop_words corpus with
    | Raise e => Raise e
    | Ok tfidf_matrix =>
        let similarity_scores := scores_of tfidf_matrix in
        let top_indices := top_indices_of similarity_scores top_n in
        Ok (map (fun i => nth i roles ""%string) top_indices)
    end.

(** [match_resume_to_roles(resume_text, job_df, top_n)] with the English
    stop-word list. *)
Definition match_resume_to_roles (resume_text : string) (job_df : data_frame)
  (top_n : Z) : outcome (list string) :=
  match_resume_to_roles_with english_stop_words resume_text job_df top_n.

(** The data frame with the two [fillna] calls applied to its cells. *)
Definition fill_row (r : row) : row :=
  mk_row (Some (match job_title r with Some t => t | None => "Unknown Role"%string end))
         (Some (match job_description_text r with Some d => d | None => ""%string end)).

Definition fill_missing (job_df : data_frame) : data_frame :=
  mk_df (columns job_df) (map fill_row (rows job_df)).

End Rank.

(* ------------------------------------------------------------------ *)
(** ** The rest of [streamlit_app.py]: file readers, upload, database
      loading, role list, interview questions and the report *)

Module App.
Local Open Scope string_scope.
Local Open Scope list_scope.

(** [s.endswith(suffix)] *)
Definition endswith (s suffix : string) : bool :=
  let n := String.length s in
  let m := String.length suffix in
  Nat.leb m n && String.eqb (substring (n - m) m s) suffix.

(** [extract_pdf_text]: [reader] is what [PdfReader(file).pages] yields,
    page by page the value of [page.extract_text()] ([None] for Python's
    [None]); [None] for the whole reader when [PdfReader] raises, which
    the function catches and answers with [""]. *)
Definition extract_pdf_text (reader : option (list (option string))) : string :=
  match reader with
  | None => ""
  | Some pages =>
      Py.join Py.nl
        (flat_map (fun p => match p with
                            | Some t => if Py.truthy t then [t] else []
                            | None => []
                            end) pages)
  end.

(** [extract_word_text]: [doc] is the list of [para.text] of
    [Document(file).paragraphs], [None] when [Document] raises. *)
Definition extract_word_text (doc : option (list string)) : string :=
  match doc with
  | None => ""
  | Some paras => Py.join Py.nl paras
  end.

(** An uploaded file: its name, and what the PDF and Word readers make
    of its bytes. *)
Record uploaded := mk_uploaded {
  name : string;
  pdf_pages : option (list (option string));
  docx_paragraphs : option (list string)
}.

(** [upload_data], as its effect on [st.session_state.resume_summary]
    ([None] is Python's [None]); [f] is [None] when nothing is
    uploaded. The [.xlsx] branch only displays a preview. *)
Definition upload_data (resume_summary : option Extract.result)
  (f : option uploaded) : option Extract.result :=
  match f with
  | None => resume_summary
  | Some u =>
      if endswith (name u) ".pdf" then
        Some (Extract.extract_resume_details (extract_pdf_text (pdf_pages u)))
      else if endswith (name u) ".docx" then
        Some (Extract.extract_resume_details (extract_word_text (docx_paragraphs u)))
      else resume_summary
  end.

(** Truthiness of the stored summary (a dict or a string). *)
Definition summary_truthy (s : Extract.result) : bool :=
  match s with
  | Extract.Sections m => match m with [] => false | _ => true end
  | Extract.Sentinel msg => Py.truthy msg
  end.

(** The [resume_text] built in [main] from the stored summary. *)
Definition resume_text_of (s : Extract.result) : string :=
  match s with
  | Extract.Sections m => Py.join Py.nl (map snd m)
  | Extract.Sentinel msg => msg
  end.

(** [dict.get] on a dictionary literal, kept as an association list. *)
Fixpoint lookup {A} (k : string) (l : list (string * A)) : option A :=
  match l with
  | [] => None
  | (k', v) :: rest => if String.eqb k' k then Some v else lookup k rest
  end.

(** [experience_questions] *)
Definition experience_questions : list (string * list string) := [
    ("Internship",
     ["Explain the difference between supervised and unsupervised learning.";
      "What is overfitting and how can you prevent it?";
      "Describe a project where you used machine learning.";
      "What Python libraries are you familiar with for ML?";
      "How would you evaluate the performance of a model?"]);
    ("Entry level",
     ["How does a decision tree algorithm work?";
      "What are precision, recall, and F1-score?";
      "Describe how gradient descent works.";
      "How would you clean a large dataset with missing values?";
      "What are common activation functions in neural networks?"]);
    ("Associate",
     ["Explain the concept of regularization in machine learning.";
      "How do you handle class imbalance in a dataset?";
      "What’s the difference between bagging and boosting?";
      "Describe your experience with deploying ML models.";
      "What’s your approach to feature selection?"]);
    ("Mid-Senior level",
     ["Describe the architecture of a recent ML project you led.";
      "How do you scale machine learning solutions in production?";
      "What is your approach to model interpretability?";
      "Discuss the tradeoffs between model complexity and performance.";
      "How do you stay updated with the latest ML research?"]);
    ("Director",
     ["How do you align data science initiatives with business goals?";
      "Describe a time you managed a cross-functional data team.";
      "How do you prioritize ML projects?";
      "What’s your strategy for talent development in your team?";
      "How do you measure the impact of ML in your organization?"]);
    ("Executive",
     ["How do you define the data vision for an organization?";
      "What are your strategies for data governance and compliance?";
      "How do you collaborate with other executives on data strategy?";
      "Describe a time you led a digital transformation initiative.";
      "How do you balance innovation with operational efficiency?"]) ].

(** The [sheet_map] of [main]. *)
Definition sheet_map : list (string * string) := [
  ("Internship", "Fresher_Level"); ("Entry level", "Fresher_Level");
  ("Associate", "Fresher_Level"); ("Mid-Senior level", "Senior_Level");
  ("Director", "Senior_Level"); ("Executive", "Senior_Level") ].

(** The frame of the [except] branch. *)
Definition empty_database : Rank.data_frame :=
  Rank.mk_df ["job_title"; "job_description_text"] [].

(** The [try] block loading [database]: [workbook] is the list of
    (sheet name, sheet) of [DB_PATH], [None] when the file cannot be
    opened. [available_sheets[0]] is evaluated before [get] is called,
    so a workbook without sheets fails too. *)
Definition load_database (workbook : option (list (string * Rank.data_frame)))
  (experience_level : string) : Rank.data_frame :=
  match workbook with
  | None => empty_database
  | Some sheets =>
      match map fst sheets with
      | [] => empty_database
      | first :: _ =>
          let sheet_name :=
            match lookup experience_level sheet_map with
            | Some s => s
            | None => first
            end in
          match lookup sheet_name sheets with
          | Some df => df
          | None => empty_database
          end
      end
  end.

(** Errors raised by [main] outside any [try]. *)
Inductive app_error :=
| Ranking (e : Rank.exc)
| KeyError (key : string).

Inductive app_outcome (A : Type) := Done (a : A) | Fail (e : app_error).
Arguments Done {A} a.
Arguments Fail {A} e.

Definition has_column (df : Rank.data_frame) (c : string) : bool :=
  existsb (String.eqb c) (Rank.columns df).

(** [Series.unique()]: first occurrences, in order. *)
Fixpoint unique_from (seen : list string) (l : list string) : list string :=
  match l with
  | [] => []
  | x :: r =>
      if existsb (String.eqb x) seen then unique_from seen r
      else x :: unique_from (x :: seen) r
  end.

(** [database["job_title"].dropna().unique().tolist()] *)
Definition title_options (database : Rank.data_frame) : app_outcome (list string) :=
  if has_column database "job_title" then
    Done (unique_from []
            (flat_map (fun r => match Rank.job_title r with
                                | Some t => [t] | None => [] end) (Rank.rows database)))
  else Fail (KeyError "job_title").

(** The options of the role select box:
    [matched_roles or database["job_title"].dropna().unique().tolist()]. *)
Definition role_options (resume_summary : option Extract.result)
  (database : Rank.data_frame) : app_outcome (list string) :=
  let matched :=
    match resume_summary with
    | Some s =>
        if summary_truthy s then
          match Rank.match_resume_to_roles (resume_text_of s) database 3 with
          | Rank.Ok l => Done l
          | Rank.Raise e => Fail (Ranking e)
          end
        else Done []
    | None => Done []
    end in
  match matched with
  | Fail e => Fail e
  | Done [] => title_options database
  | Done l => Done l
  end.

(** The question list of the "Start Interview" button:
    [experience_questions.get(experience_level, []) +
     database[database["job_title"] == selected_role]["job_description_text"].dropna().tolist()];
    indexing a missing column raises [KeyError]. *)
Definition interview_questions (experience_level selected_role : string)
  (database : Rank.data_frame) : app_outcome (list string) :=
  let level_questions :=
    match lookup experience_level experience_questions with
    | Some qs => qs
    | None => []
    end in
  if negb (has_column database "job_title") then Fail (KeyError "job_title")
  else if negb (has_column database "job_description_text") then
    Fail (KeyError "job_description_text")
  else
    Done (level_questions ++
          flat_map (fun r =>
                      match Rank.job_title r, Rank.job_description_text r with
                      | Some t, Some d => if String.eqb t selected_role then [d] else []
                      | _, _ => []
                      end) (Rank.rows database)).

(** The "Start Interview" button: the role and the empty log are stored
    before the question list is built, so an exception there leaves
    them set. [selected_role] is [None] when the select box is empty. *)
Definition press_start (s : Session.state) (experience_level : string)
  (selected_role : option string) (database : Rank.data_frame)
  : Session.state * option app_error :=
  match selected_role with
  | Some r =>
      if Py.truthy r then
        match interview_questions experience_level r database with
        | Done qs => (Session.start s r qs, None)
        | Fail e => (Session.mk_state [] (Some r) (Session.current_question s)
                                      (Session.transcripts s), Some e)
        end
      else (s, None)
  | None => (s, None)
  end.

(** *** The "Download" page *)

Definition speaker_name (sp : Session.speaker) : string :=
  match sp with
  | Session.Interviewer => "Interviewer"
  | Session.Candidate => "Candidate"
  end.

(** [f"{role}: {text}"] *)
Definition entry_line (e : Session.speaker * string) : string :=
  (speaker_name (fst e) ++ ": " ++ snd e)%string.

Definition transcript (conversation : list (Session.speaker * string)) : string :=
  Py.join Py.nl (map entry_line conversation).

Definition two_nl : string := (Py.nl ++ Py.nl)%string.

(** The [resume_summary] text of the page: the sections as
    [f"{sec}:\n{cont}"] joined by blank lines, the stored string
    itself, or [""] when nothing (truthy) is stored. *)
Definition summary_text (resume_summary : option Extract.result) : string :=
  match resume_summary with
  | Some s =>
      if summary_truthy s then
        match s with
        | Extract.Sections m =>
            Py.join two_nl (map (fun kv => (fst kv ++ ":" ++ Py.nl ++ snd kv)%string) m)
        | Extract.Sentinel msg => msg
        end
      else ""
  | None => ""
  end.

(** [full_output] *)
Definition full_report (conversation : list (Session.speaker * string))
  (resume_summary : option Extract.result) : string :=
  let rs := summary_text resume_summary in
  (transcript conversation ++
   (if Py.truthy rs then two_nl ++ "Resume Summary:" ++ Py.nl ++ rs else ""))%string.

(** The download buttons shown, as (file name, data). *)
Definition downloads (s : Session.state) (resume_summary : option Extract.result)
  : list (string * string) :=
  match Session.conversation s with
  | [] => []
  | conv =>
      let rs := summary_text resume_summary in
      ("interview_summary.txt", full_report conv resume_summary) ::
      (if Py.truthy rs then [("resume_summary.txt", rs)] else [])
  end.

End App.

(* ================================================================== *)
(** * Properties of [extract_resume_details] *)

Module ExtractSpec.
Import Extract.

Lemma append_to_keys (key line : string) (info : list (string * list string)) :
  map fst (append_to key line info) = map fst info.
Proof.
  induction info as [|[k v] rest IH]; simpl; [reflexivity|].
  destruct (String.eqb k key); simpl; [reflexivity | now rewrite IH].
Qed.

Lemma step_keys (st : list (string * list string) * option string) (raw : string) :
  map fst (fst (step st raw)) = map fst (fst st).
Proof.
  destruct st as [info cur]; unfold step.
  destruct (find_section _ _); [reflexivity|].
  destruct cur; simpl; [apply append_to_keys | reflexivity].
Qed.

Lemma fold_step_keys (lines : list string) st :
  map fst (fst (fold_left step lines st)) = map fst (fst st).
Proof.
  revert st; induction lines as [|raw rest IH]; intros st; simpl; [reflexivity|].
  rewrite IH; apply step_keys.
Qed.

(** A line that matches no keyword list leaves the initial state alone. *)
Lemma step_no_header (raw : string) :
  find_section (Py.strip raw) summary_sections = None ->
  step (init_info, None) raw = (init_info, None).
Proof. intros H; unfold step; now rewrite H. Qed.

Lemma find_section_none (line : string) (secs : list (string * list string)) :
  Forall (fun sk => matches line (snd sk) = false) secs ->
  find_section line secs = None.
Proof.
  induction 1 as [|[sec kws] rest Hm _ IH]; simpl in *; [reflexivity|].
  now rewrite Hm.
Qed.

Lemma fold_no_header (lines : list string) :
  Forall (fun raw => Forall (fun sk => matches (Py.strip raw) (snd sk) = false)
                            summary_sections) lines ->
  fold_left step lines (init_info, None) = (init_info, None).
Proof.
  induction 1 as [|raw rest Hraw _ IH]; [reflexivity|].
  cbn [fold_left]; rewrite step_no_header; [exact IH|].
  now apply find_section_none.
Qed.

(** C9: on the text [Skills / Python / Go / Experience / 2 years at X]
    (lines separated by newlines) the headers only move the cursor and
    the other lines are accumulated under it and joined with newlines:
    the result is the map {Skills: "Python\nGo", Experience: "2 years at X"}. *)
Theorem extract_scenario_skills_experience :
  extract_resume_details
    ("Skills" ++ Py.nl ++ "Python" ++ Py.nl ++ "Go" ++ Py.nl ++
     "Experience" ++ Py.nl ++ "2 years at X")%string
  = Sections [("Skills", "Python" ++ Py.nl ++ "Go");
              ("Experience", "2 years at X")]%string.
Proof. vm_compute. reflexivity. Qed.

(** C8: when no stripped line starts, case-insensitively, with any
    header phrase of any section, [extract_resume_details] returns the
    no-data sentinel message. *)
Theorem extract_no_header_sentinel (text : string) :
  Forall (fun raw => Forall (fun sk => matches (Py.strip raw) (snd sk) = false)
                            summary_sections)
         (Py.split Py.newline text) ->
  extract_resume_details text = Sentinel sentinel_msg.
Proof.
  intros H; unfold extract_resume_details.
  rewrite (fold_no_header _ H); reflexivity.
Qed.

Lemma extract_no_header_sentinel_witness :
  Forall (fun raw => Forall (fun sk => matches (Py.strip raw) (snd sk) = false)
                            summary_sections)
         (Py.split Py.newline ("Python" ++ Py.nl ++ "Go")%string) /\
  extract_resume_details ("Python" ++ Py.nl ++ "Go")%string = Sentinel sentinel_msg.
Proof.
  assert (H : Forall (fun raw => Forall (fun sk => matches (Py.strip raw) (snd sk) = false)
                            summary_sections)
         (Py.split Py.newline ("Python" ++ Py.nl ++ "Go")%string))
    by (vm_compute; repeat constructor).
  split; [exact H | apply (extract_no_header_sentinel _ H)].
Defined.

(** C4 (counterexample): a header followed only by a blank line yields
    the key [Skills] with empty text; the blank line was accumulated. *)
Lemma extract_blank_body_kept :
  extract_resume_details ("Skills" ++ Py.nl)%string = Sections [("Skills", "")]%string.
Proof. vm_compute. reflexivity. Qed.

Lemma firstn_S_nth {A} (l : list A) (k : nat) (d : A) :
  k < length l -> firstn (S k) l = firstn k l ++ [nth k l d].
Proof.
  revert k; induction l as [|x l IH]; intros [|k] H; simpl in *; try lia; [reflexivity|].
  rewrite IH by lia; reflexivity.
Qed.

Lemma sorted_lt_snoc (js : list nat) (k : nat) :
  Sorted lt js -> (forall j, In j js -> j < k) -> Sorted lt (js ++ [k]).
Proof.
  induction 1 as [|x js Hs IH Hhd]; intros Hlt; simpl; [repeat constructor|].
  constructor; [apply IH; intros j Hj; apply Hlt; now right|].
  destruct js as [|y js]; simpl; constructor.
  - apply Hlt; now left.
  - now inversion Hhd.
Qed.

(** The lines of a text as [extract_resume_details] reads them, and
    what makes a line part of the text of a section: a non-header line
    that comes after a header of that section, with no other header in
    between. *)
Section Text.
Variable text : string.

Definition lines_of : list string := Py.split Py.newline text.

(** The stripped line [j] of the text, as the loop sees it. *)
Definition line_at (j : nat) : string := Py.strip (nth j lines_of ""%string).

(** The section whose header line [j] is, if any. *)
Definition header_at (j : nat) : option string := find_section (line_at j) summary_sections.

(** Line [j] comes after a header of [sec] with no header in between. *)
Definition owns (sec : string) (j : nat) : Prop :=
  exists i, i < j /\ header_at i = Some sec /\ forall k, i < k < j -> header_at k = None.

(** Line [j] is a body line of section [sec]. *)
Definition section_line (sec : string) (j : nat) : Prop :=
  j < length lines_of /\ header_at j = None /\ owns sec j.

Lemma owns_functional sec sec' j : owns sec j -> owns sec' j -> sec = sec'.
Proof.
  intros [i [Hi [Hs Hb]]] [i' [Hi' [Hs' Hb']]].
  destruct (Nat.lt_total i i') as [Hlt|[->|Hlt]].
  - rewrite (Hb i') in Hs' by lia; discriminate.
  - congruence.
  - rewrite (Hb' i) in Hs by lia; discriminate.
Qed.

Lemma owns_after_header sec k : header_at k = Some sec -> forall sec', owns sec' (S k) <-> sec' = sec.
Proof.
  intros Hk sec'; split.
  - intros Ho. apply (owns_functional sec' sec (S k) Ho).
    exists k; split; [lia|]; split; [exact Hk | intros; lia].
  - intros ->. exists k; split; [lia|]; split; [exact Hk | intros; lia].
Qed.

Lemma owns_after_body sec k : header_at k = None -> (owns sec (S k) <-> owns sec k).
Proof.
  intros Hk; split.
  - intros [i [Hi [Hs Hb]]].
    destruct (Nat.eq_dec i k) as [->|Hne]; [congruence|].
    exists i; split; [lia|]; split; [exact Hs | intros; apply Hb; lia].
  - intros [i [Hi [Hs Hb]]].
    exists i; split; [lia|]; split; [exact Hs|].
    intros k' Hk'. destruct (Nat.eq_dec k' k) as [->|]; [exact Hk | apply Hb; lia].
Qed.

Lemma find_section_in line secs sec :
  find_section line secs = Some sec -> In sec (map fst secs).
Proof.
  induction secs as [|[s kws] rest IH]; simpl; [discriminate|].
  destruct (matches line kws); [intros [= ->]; now left | intros H; right; auto].
Qed.

(** The loop state after [k] lines. *)
Definition state_ok (k : nat) (st : list (string * list string) * option string) : Prop :=
  map fst (fst st) = map fst summary_sections /\
  (forall sec, snd st = Some sec <-> owns sec k) /\
  (forall sec vs, In (sec, vs) (fst st) ->
     exists js, vs = map line_at js /\ Sorted lt js /\
       forall j, In j js <-> j < k /\ header_at j = None /\ owns sec j).

Lemma append_to_in key line info sec vs :
  NoDup (map fst info) ->
  In (sec, vs) (append_to key line info) ->
  (sec = key /\ exists vs0, vs = vs0 ++ [line] /\ In (sec, vs0) info) \/
  (sec <> key /\ In (sec, vs) info).
Proof.
  induction info as [|[k v] rest IH]; intros Hnd Hin; simpl in *; [destruct Hin|].
  inversion Hnd as [|? ? Hnk Hnd']; subst.
  destruct (String.eqb_spec k key) as [->|Hne].
  - destruct Hin as [[= <- <-]|Hin].
    + left; split; [reflexivity|]. exists v; split; [reflexivity | now left].
    + right; split; [|now right].
      intros ->. apply Hnk. apply (in_map fst) in Hin; exact Hin.
  - destruct Hin as [[= <- <-]|Hin].
    + right; split; [exact Hne | now left].
    + destruct (IH Hnd' Hin) as [[E [vs0 [E2 H]]]|[E H]].
      * left; split; [exact E|]. exists vs0; split; [exact E2 | now right].
      * right; split; [exact E | now right].
Qed.

Lemma state_ok_step k st :
  k < length lines_of -> state_ok k st -> state_ok (S k) (step st (nth k lines_of ""%string)).
Proof.
  intros Hk [Hkeys [Hcur Hinfo]].
  destruct st as [info cur]; cbn [fst snd] in *.
  unfold step. fold (line_at k). fold (header_at k).
  destruct (header_at k) as [sec0|] eqn:Eh.
  - split; [exact Hkeys|]. split.
    + intros sec; cbn [snd]. rewrite (owns_after_header sec0 k Eh sec). split; congruence.
    + intros sec vs Hin. destruct (Hinfo sec vs Hin) as [js [E1 [E2 E3]]].
      exists js; split; [exact E1|]; split; [exact E2|].
      intros j; rewrite E3; split.
      * intros [Hj [Hh Ho]]. split; [lia|]. split; [exact Hh|].
        destruct Ho as [i [Hi [Hs Hb]]]. exists i; split; [lia|]; split; [exact Hs|].
        intros; apply Hb; lia.
      * intros [Hj [Hh Ho]]. destruct (Nat.eq_dec j k) as [->|Hne]; [congruence|].
        split; [lia|]. split; [exact Hh|].
        destruct Ho as [i [Hi [Hs Hb]]]. exists i; split; [lia|]; split; [exact Hs|].
        intros; apply Hb; lia.
  - assert (Hrest : forall sec j, j < S k /\ header_at j = None /\ owns sec j <->
                    (j < k /\ header_at j = None /\ owns sec j) \/ (j = k /\ owns sec k)).
    { intros sec j; split.
      - intros [Hj [Hh Ho]]. destruct (Nat.eq_dec j k) as [->|Hne]; [now right|].
        left; split; [lia|]; split; [exact Hh|].
        destruct Ho as [i [Hi [Hs Hb]]]. destruct (Nat.eq_dec i k) as [->|]; [congruence|].
        exists i; split; [lia|]; split; [exact Hs|]. intros; apply Hb; lia.
      - intros [[Hj [Hh Ho]]|[-> Ho]].
        + split; [lia|]; split; [exact Hh|].
          destruct Ho as [i [Hi [Hs Hb]]]. exists i; split; [lia|]; split; [exact Hs|].
          intros; apply Hb; lia.
        + split; [lia|]; split; [exact Eh | exact Ho]. }
    destruct cur as [sec0|].
    + assert (Ho0 : owns sec0 k) by (apply Hcur; reflexivity).
      assert (Hnd : NoDup (map fst info)) by (rewrite Hkeys; vm_compute; repeat constructor; simpl; intuition discriminate).
      split; [cbn [fst]; rewrite append_to_keys; exact Hkeys|]. split.
      * intros sec; cbn [snd]. rewrite owns_after_body by exact Eh. apply Hcur.
      * intros sec vs Hin. cbn [fst] in Hin.
        destruct (append_to_in sec0 (line_at k) info sec vs Hnd Hin) as [[-> [vs0 [-> Hin0]]]|[Hne Hin0]].
        -- destruct (Hinfo sec0 vs0 Hin0) as [js [E1 [E2 E3]]].
           exists (js ++ [k]). split; [rewrite map_app, E1; reflexivity|].
           split; [apply sorted_lt_snoc; [exact E2 | intros j Hj; apply E3 in Hj; lia]|].
           intros j. rewrite in_app_iff, E3, Hrest. simpl.
           split; intros [H|H]; [now left | right | now left | right].
           ++ destruct H as [<-|[]]; split; [reflexivity | exact Ho0].
           ++ destruct H as [-> _]; now left.
        -- destruct (Hinfo sec vs Hin0) as [js [E1 [E2 E3]]].
           exists js; split; [exact E1|]; split; [exact E2|].
           intros j. rewrite E3, Hrest. split; [now left|].
           intros [H|[-> Ho]]; [exact H|].
           exfalso; apply Hne, (owns_functional sec sec0 k Ho Ho0).
    + split; [exact Hkeys|]. split.
      * intros sec; cbn [snd]. rewrite owns_after_body by exact Eh. apply Hcur.
      * intros sec vs Hin. destruct (Hinfo sec vs Hin) as [js [E1 [E2 E3]]].
        exists js; split; [exact E1|]; split; [exact E2|].
        intros j. rewrite E3, Hrest. split; [now left|].
        intros [H|[-> Ho]]; [exact H|].
        apply Hcur in Ho; discriminate.
Qed.

Lemma state_ok_fold k :
  k <= length lines_of ->
  state_ok k (fold_left step (firstn k lines_of) (init_info, None)).
Proof.
  induction k as [|k IH]; intros Hk.
  - split; [reflexivity|]. split.
    + intros sec; split; [discriminate|]. intros [i [Hi _]]; lia.
    + intros sec vs Hin. exists [].
      unfold init_info in Hin; apply in_map_iff in Hin.
      destruct Hin as [kv [E _]]; injection E as _ <-. split; [reflexivity|]. split; [constructor|]. intros j; simpl; lia.
  - rewrite (firstn_S_nth lines_of k ""%string) by lia.
    rewrite fold_left_app. cbn [fold_left].
    apply state_ok_step; [lia | apply IH; lia].
Qed.

End Text.

Lemma format_in info sec v :
  In (sec, v) (format info) <-> exists vs, In (sec, vs) info /\ vs <> [] /\ v = Py.join Py.nl vs.
Proof.
  unfold format; rewrite in_map_iff; split.
  - intros [[k vs] [E Hin]]; injection E as <- <-.
    apply filter_In in Hin; destruct Hin as [Hin Hne].
    exists vs; split; [exact Hin|]; split; [destruct vs; [discriminate | congruence] | reflexivity].
  - intros [vs [Hin [Hne ->]]]. exists (sec, vs); split; [reflexivity|].
    apply filter_In; split; [exact Hin | destruct vs; [congruence | reflexivity]].
Qed.

(** C4 (amended): a non-sentinel result is a non-empty map whose keys
    are canonical section names. The value of a key [sec] is the newline
    join of the stripped lines accumulated under [sec], in text order:
    every non-header line that follows a header of [sec] with no other
    header in between ([section_line]). A key is present as soon as one
    such line exists, blank or not, so a header followed only by blank
    lines still appears, with empty or newline-only text; a sentinel
    result (the no-data message) means no line was accumulated at all. *)
Theorem extract_sections_accumulated (text : string) :
  match extract_resume_details text with
  | Sections m =>
      m <> [] /\
      (forall sec v, In (sec, v) m ->
         In sec (map fst summary_sections) /\
         exists js, js <> [] /\ Sorted lt js /\
           (forall j, In j js <-> section_line text sec j) /\
           v = Py.join Py.nl (map (line_at text) js)) /\
      (forall sec j, section_line text sec j -> In sec (map fst m))
  | Sentinel msg => msg = sentinel_msg /\ forall sec j, ~ section_line text sec j
  end.
Proof.
  unfold extract_resume_details. fold (lines_of text).
  pose proof (state_ok_fold text (length (lines_of text)) (le_n _)) as Hok.
  rewrite firstn_all in Hok.
  destruct (fold_left step (lines_of text) (init_info, None)) as [info cur].
  destruct Hok as [Hkeys [_ Hinfo]]; cbn [fst snd] in Hkeys, Hinfo.
  assert (Hsound : forall sec v, In (sec, v) (format info) ->
    In sec (map fst summary_sections) /\
    exists js, js <> [] /\ Sorted lt js /\
      (forall j, In j js <-> section_line text sec j) /\
      v = Py.join Py.nl (map (line_at text) js)).
  { intros sec v Hin. apply format_in in Hin. destruct Hin as [vs [Hin [Hne ->]]].
    split; [rewrite <- Hkeys; apply (in_map fst) in Hin; exact Hin|].
    destruct (Hinfo sec vs Hin) as [js [-> [Hs Hj]]].
    exists js; split; [intros ->; apply Hne; reflexivity|]. split; [exact Hs|].
    split; [exact Hj | reflexivity]. }
  assert (Hcomp : forall sec j, section_line text sec j -> In sec (map fst (format info))).
  { intros sec j Hb.
    assert (Hsec : In sec (map fst info)).
    { rewrite Hkeys. destruct Hb as [_ [_ [i [_ [Hi _]]]]].
      exact (find_section_in _ _ _ Hi). }
    apply in_map_iff in Hsec; destruct Hsec as [[k vs] [Ek Hin]]; cbn [fst] in Ek; subst k.
    destruct (Hinfo sec vs Hin) as [js [Evs [_ Hj]]].
    apply (in_map fst (format info) (sec, Py.join Py.nl vs)), format_in.
    exists vs; split; [exact Hin|]; split; [|reflexivity].
    subst vs. apply Hj in Hb. destruct js; [destruct Hb | discriminate]. }
  destruct (format info) as [|kv out] eqn:E.
  - split; [reflexivity|]. intros sec j Hb. exact (Hcomp sec j Hb).
  - split; [discriminate|]. split; [exact Hsound | exact Hcomp].
Qed.

End ExtractSpec.

(* ================================================================== *)
(** * Properties of the interview session *)

Module SessionSpec.
Import Session.
Local Open Scope string_scope.
Local Open Scope list_scope.













Lemma run_cons (s : state) (o : op) (ops : list op) :
  run s (o :: ops) = run (exec s o) ops.
Proof. reflexivity. Qed.

(** Answering the pending question [q] and then each remaining question
    of the queue, with answers that are not blank. *)
Lemma submit_all (rest answers : list string) :
  Forall (fun q => Py.truthy q = true) rest ->
  Forall (fun a => Py.truthy (Py.strip a) = true) answers ->
  length answers = length rest ->
  forall c rl q a,
  Py.truthy q = true -> Py.truthy (Py.strip a) = true ->
  run (mk_state c rl (Some q) rest) (map Submit (a :: answers))
  = mk_state (c ++ (Candidate, a) :: interleave rest answers) rl None [].
Proof.
  intros Hrest; revert answers.
  induction Hrest as [|q' rest Hq' _ IH]; intros answers Ha Hlen c rl q a Hq Hqa.
  - destruct answers; [|discriminate].
    unfold run; cbn [map fold_left exec]; unfold submit_answer, pending;
    cbn [current_question transcripts conversation role]; rewrite Hq, Hqa; reflexivity.
  - destruct answers as [|a' answers]; [discriminate|].
    inversion Ha as [|? ? Ha' Has]; subst.
    cbn [map]; rewrite run_cons; cbn [exec].
    assert (E : submit_answer (mk_state c rl (Some q) (q' :: rest)) a
                = mk_state (c ++ [(Candidate, a)] ++ [(Interviewer, q')]) rl (Some q') rest).
    { unfold submit_answer, pending; cbn [current_question transcripts conversation role].
      rewrite Hq, Hqa; now rewrite <- app_assoc. }
    rewrite E.
    change (Submit a' :: map Submit answers) with (map Submit (a' :: answers)).
    rewrite IH; auto.
    simpl; rewrite <- app_assoc; reflexivity.
Qed.

Lemma interleave_length (qs answers : list string) :
  length answers = length qs -> length (interleave qs answers) = 2 * length qs.
Proof.
  revert answers; induction qs as [|q qs IH]; intros [|a answers] H;
    simpl in *; try lia.
  rewrite IH; lia.
Qed.

Lemma interleave_alternates (qs answers : list string) :
  alternates Interviewer (interleave qs answers) = true.
Proof.
  revert answers; induction qs as [|q qs IH]; intros [|a answers]; simpl; auto.
Qed.

(** C7: an answer that is empty or only whitespace leaves the whole
    session state unchanged (pending question, log and queue). *)
Theorem submit_blank_unchanged (s : state) (answer : string) :
  Py.truthy (Py.strip answer) = false -> submit_answer s answer = s.
Proof.
  intros H; unfold submit_answer; rewrite H.
  destruct (pending s); reflexivity.
Qed.

Lemma submit_blank_unchanged_witness :
  Py.truthy (Py.strip "  ") = false /\
  submit_answer (mk_state [(Interviewer, "Q1")] (Some "R") (Some "Q1") ["Q2"]) "  "
  = mk_state [(Interviewer, "Q1")] (Some "R") (Some "Q1") ["Q2"].
Proof.
  split; [reflexivity | apply submit_blank_unchanged; reflexivity].
Defined.



(** C6: for a non-empty role, questions [qs] that are all non-empty
    and as many answers that are not blank, start followed by the
    answers ends in the state whose log is
    [(Interviewer, q1); (Candidate, a1); ...] in the order given, with
    no pending question and an empty queue: the session is completed,
    the log has length [2 * length qs] and alternates starting with the
    interviewer. The hypotheses on the questions hold of every list
    [main] passes to start (five level questions, then descriptions
    without missing cells); an empty [qs] only needs that nothing was
    pending before. *)
Theorem full_interview (s : state) (r : string) (qs answers : list string) :
  Py.truthy r = true ->
  Forall (fun q => Py.truthy q = true) qs ->
  Forall (fun a => Py.truthy (Py.strip a) = true) answers ->
  length answers = length qs ->
  qs <> [] \/ current_question s = None ->
  let s' := run s (Start r qs :: map Submit answers) in
  s' = mk_state (interleave qs answers) (Some r) None [] /\
  completed s' /\
  length (conversation s') = 2 * length qs /\
  alternates Interviewer (conversation s') = true.
Proof.
  intros Hr Hq Ha Hlen Hs s'.
  assert (E : s' = mk_state (interleave qs answers) (Some r) None []).
  { unfold s'; destruct qs as [|q rest].
    - destruct answers; [|discriminate].
      destruct Hs as [Hs|Hs]; [contradiction|].
      unfold run; simpl; unfold start; rewrite Hr, Hs; reflexivity.
    - destruct answers as [|a answers]; [discriminate|].
      inversion Hq as [|? ? Hq1 Hrest]; inversion Ha as [|? ? Ha1 Has]; subst.
      rewrite run_cons; cbn [exec]; unfold start; rewrite Hr.
      rewrite submit_all; auto. }
  rewrite E; split; [reflexivity|].
  split; [split; [discriminate | split; reflexivity]|].
  split; simpl; [now apply interleave_length | apply interleave_alternates].
Qed.

Lemma full_interview_witness :
  let s' := run init (Start "Engineer" ["Q1"; "Q2"] :: map Submit ["A1"; "A2"]) in
  s' = mk_state [(Interviewer, "Q1"); (Candidate, "A1");
                 (Interviewer, "Q2"); (Candidate, "A2")] (Some "Engineer") None [] /\
  completed s' /\
  length (conversation s') = 2 * 2 /\
  alternates Interviewer (conversation s') = true.
Proof.
  apply (full_interview init "Engineer" ["Q1"; "Q2"] ["A1"; "A2"]).
  - reflexivity.
  - repeat constructor.
  - repeat constructor.
  - reflexivity.
  - right; reflexivity.
Defined.

End SessionSpec.

(* ================================================================== *)
(** * Properties of [match_resume_to_roles] *)

Module RankSpec.
Import Rank.
Local Open Scope string_scope.
Local Open Scope list_scope.

(** *** [argsort]: a permutation, sorted by score then by index *)

(** *** Array updates *)

Local Close Scope string_scope.

Lemma sorted_snoc {A} (Rel : A -> A -> Prop) (l : list A) (a : A) :
  Sorted Rel l -> (forall x, last l a = x -> l <> [] -> Rel x a) -> Sorted Rel (l ++ [a]).
Proof.
  induction 1 as [|x l Hl IH Hhd]; intros Hlast; simpl; [now repeat constructor|].
  constructor.
  - apply IH; intros y Hy Hne.
    apply (Hlast y); [|discriminate].
    destruct l; [contradiction | exact Hy].
  - destruct l as [|y l]; simpl.
    + constructor; apply (Hlast x); [reflexivity | discriminate].
    + constructor; now inversion Hhd.
Qed.

Lemma sorted_rev {A} (Rel : A -> A -> Prop) (l : list A) :
  Sorted Rel l -> Sorted (fun x y => Rel y x) (rev l).
Proof.
  induction 1 as [|x l Hl IH Hhd]; simpl; [constructor|].
  apply sorted_snoc; [exact IH|].
  intros y Hy Hne; destruct l as [|z l]; [contradiction|].
  assert (E : last (rev (z :: l)) x = z).
  { simpl; apply last_last. }
  rewrite E in Hy; subst y; inversion Hhd; assumption.
Qed.

Lemma length_upd a i x : length (upd a i x) = length a.
Proof. revert i; induction a as [|y r IH]; intros [|i]; simpl; auto. Qed.

Lemma get_upd_eq a i x : i < length a -> get (upd a i x) i = x.
Proof.
  unfold get; revert i; induction a as [|y r IH]; intros [|i] H; simpl in *; try lia; auto.
  apply IH; lia.
Qed.

Lemma get_upd_neq a i j x : i <> j -> get (upd a i x) j = get a j.
Proof.
  unfold get; revert i j; induction a as [|y r IH]; intros [|i] [|j] H; simpl;
    try congruence; auto.
Qed.

Lemma upd_get a i : upd a i (get a i) = a.
Proof.
  unfold get; revert i; induction a as [|y r IH]; intros [|i]; simpl; auto.
  rewrite IH; reflexivity.
Qed.

Lemma upd_upd a i x y : upd (upd a i x) i y = upd a i y.
Proof. revert i; induction a as [|z r IH]; intros [|i]; simpl; auto. rewrite IH; reflexivity. Qed.

Lemma length_swap a i j : length (swap a i j) = length a.
Proof. unfold swap; rewrite !length_upd; reflexivity. Qed.

Lemma get_swap_l a i j : i < length a -> j < length a -> get (swap a i j) i = get a j.
Proof.
  intros Hi Hj; unfold swap. destruct (Nat.eq_dec i j) as [->|Hne].
  - rewrite get_upd_eq by (rewrite length_upd; lia). reflexivity.
  - rewrite get_upd_neq by congruence. apply get_upd_eq; lia.
Qed.

Lemma get_swap_r a i j : i < length a -> j < length a -> get (swap a i j) j = get a i.
Proof. intros Hi Hj; unfold swap. rewrite get_upd_eq by (rewrite length_upd; lia). reflexivity. Qed.

Lemma get_swap_other a i j p : p <> i -> p <> j -> get (swap a i j) p = get a p.
Proof. intros Hi Hj; unfold swap. rewrite !get_upd_neq by congruence. reflexivity. Qed.

Lemma perm_get_upd r j y :
  j < length r -> Permutation (get r j :: upd r j y) (y :: r).
Proof.
  unfold get; revert j; induction r as [|z r IH]; intros [|j] H; simpl in *; try lia.
  - apply perm_swap.
  - eapply perm_trans; [apply perm_swap|].
    eapply perm_trans; [apply perm_skip, IH; lia|]. apply perm_swap.
Qed.

Lemma perm_swap_arr a i j :
  i < length a -> j < length a -> Permutation (swap a i j) a.
Proof.
  unfold swap, get; revert i j; induction a as [|y r IH]; intros [|i] [|j] Hi Hj; simpl in *; try lia.
  - reflexivity.
  - apply (perm_get_upd r j y); lia.
  - apply (perm_get_upd r i y); lia.
  - apply perm_skip. apply IH; lia.
Qed.

Lemma perm_hole b p q t :
  p <> q -> p < length b -> q < length b ->
  Permutation (upd (upd b p (get b q)) q t) (upd b p t).
Proof.
  intros Hne Hp Hq.
  replace (upd (upd b p (get b q)) q t) with (swap (upd b p t) p q).
  - apply perm_swap_arr; rewrite length_upd; lia.
  - unfold swap. rewrite get_upd_eq by lia. rewrite get_upd_neq by congruence.
    rewrite upd_upd. reflexivity.
Qed.

Lemma upd_app_ge q l k x :
  length q <= k -> upd (q ++ l) k x = q ++ upd l (k - length q) x.
Proof.
  revert k; induction q as [|y q IH]; intros k H; simpl in *.
  - rewrite Nat.sub_0_r; reflexivity.
  - destruct k as [|k]; [lia|]. rewrite IH by lia; reflexivity.
Qed.

Lemma get_app_ge q l k :
  length q <= k -> get (q ++ l) k = get l (k - length q).
Proof. intros H; unfold get; apply app_nth2; exact H. Qed.

Section Less.
Variable less : nat -> nat -> bool.

(** Insertion of [vi] into a list read from its end. *)
Fixpoint ins_rev (vi : nat) (ys : list nat) : list nat :=
  match ys with
  | [] => [vi]
  | x :: ys' => if less vi x then x :: ins_rev vi ys' else vi :: ys
  end.

Definition ins_list (p : list nat) (vi : nat) : list nat := rev (ins_rev vi (rev p)).

Lemma length_ins_rev vi ys : length (ins_rev vi ys) = S (length ys).
Proof. induction ys as [|x ys IH]; simpl; [reflexivity|]. destruct (less vi x); simpl; auto. Qed.

Lemma length_ins_list p vi : length (ins_list p vi) = S (length p).
Proof. unfold ins_list; rewrite length_rev, length_ins_rev, length_rev; reflexivity. Qed.

Lemma ins_list_snoc p x vi :
  ins_list (p ++ [x]) vi = if less vi x then ins_list p vi ++ [x] else p ++ [x; vi].
Proof.
  unfold ins_list; rewrite rev_app_distr; simpl.
  destruct (less vi x); simpl; [reflexivity|].
  rewrite rev_involutive, <- app_assoc; reflexivity.
Qed.

Lemma shift_down_list p : forall q z r vi,
  shift_down less (q ++ p ++ z :: r) vi (length q) (length p) = q ++ ins_list p vi ++ r.
Proof.
  induction p as [|x p IH] using rev_ind; intros q z r vi.
  - simpl. rewrite <- (Nat.add_0_r (length q)) at 1.
    rewrite upd_app_ge by lia. rewrite Nat.add_0_r, Nat.sub_diag; reflexivity.
  - rewrite length_app; simpl length; rewrite Nat.add_1_r.
    cbn [shift_down].
    replace (q ++ (p ++ [x]) ++ z :: r) with ((q ++ p) ++ x :: z :: r)
      by (rewrite <- !app_assoc; reflexivity).
    rewrite get_app_ge by (rewrite length_app; lia).
    replace (length q + length p - length (q ++ p)) with 0 by (rewrite length_app; lia).
    cbn [get nth]. rewrite ins_list_snoc.
    destruct (less vi x);
    rewrite upd_app_ge by (rewrite length_app; lia);
    replace (length q + S (length p) - length (q ++ p)) with 1 by (rewrite length_app; lia);
    cbn [upd].
    + rewrite <- app_assoc. rewrite IH. rewrite <- !app_assoc; reflexivity.
    + rewrite <- !app_assoc; reflexivity.
Qed.

Lemma insertion_from_list r : forall p q s,
  insertion_from less (q ++ p ++ r ++ s) (length q) (length p) (length r)
  = q ++ fold_left ins_list r p ++ s.
Proof.
  induction r as [|z r IH]; intros p q s; [reflexivity|].
  cbn [insertion_from length fold_left].
  rewrite get_app_ge by lia. rewrite get_app_ge by lia.
  replace (length q + length p - length q - length p) with 0 by lia.
  cbn [get nth app].
  rewrite shift_down_list.
  rewrite <- (length_ins_list p z). apply IH.
Qed.

Lemma ins_rev_perm vi ys : Permutation (ins_rev vi ys) (vi :: ys).
Proof.
  induction ys as [|x ys IH]; simpl; [reflexivity|].
  destruct (less vi x); [|reflexivity].
  rewrite IH; apply perm_swap.
Qed.

Lemma ins_list_perm p vi : Permutation (ins_list p vi) (vi :: p).
Proof.
  unfold ins_list. rewrite <- Permutation_rev, ins_rev_perm, <- Permutation_rev. reflexivity.
Qed.

Lemma fold_ins_perm r p : Permutation (fold_left ins_list r p) (p ++ r).
Proof.
  revert p; induction r as [|z r IH]; intros p; simpl; [now rewrite app_nil_r|].
  rewrite IH. rewrite (ins_list_perm p z). simpl.
  apply Permutation_middle.
Qed.

End Less.

Section Heap.
Variable less : nat -> nat -> bool.

Lemma length_sift fuel : forall a pl n tmp i j,
  length (sift less fuel a pl n tmp i j) = length a.
Proof.
  induction fuel as [|f IH]; intros; simpl; [apply length_upd|].
  destruct (j <=? n); [|apply length_upd].
  destruct (less tmp _); [rewrite IH|]; apply length_upd.
Qed.

Lemma sift_perm fuel : forall a pl n tmp i j,
  1 <= i -> i < j -> i <= n -> pl + n - 1 < length a ->
  Permutation (sift less fuel a pl n tmp i j) (hupd a pl i tmp).
Proof.
  induction fuel as [|f IH]; intros a pl n tmp i j Hi Hij Hin Hlen; simpl; [reflexivity|].
  destruct (j <=? n) eqn:Ejn; [apply Nat.leb_le in Ejn|reflexivity].
  set (j' := if (j <? n) && less (hget a pl j) (hget a pl (j + 1)) then j + 1 else j).
  assert (Hj' : j <= j' <= n).
  { unfold j'; destruct ((j <? n) && _) eqn:E; [|lia].
    apply andb_true_iff in E; destruct E as [E _]; apply Nat.ltb_lt in E; lia. }
  destruct (less tmp (hget a pl j')); [|reflexivity].
  rewrite IH; [| lia | lia | lia | unfold hupd; rewrite length_upd; exact Hlen].
  unfold hupd, hget. apply perm_hole; lia.
Qed.

Lemma heapify_perm pl n l : forall a,
  l <= n -> pl + n - 1 < length a -> Permutation (heapify less a pl n l) a.
Proof.
  induction l as [|l IH]; intros a Hl Hlen; simpl; [reflexivity|].
  rewrite IH; [| lia | rewrite length_sift; exact Hlen].
  rewrite sift_perm by lia. unfold hupd, hget; rewrite upd_get; reflexivity.
Qed.

Lemma sort_heap_SS a pl k :
  sort_heap less a pl (S (S k))
  = sort_heap less (sift less (S k) (hupd a pl (S (S k)) (hget a pl 1)) pl (S k)
                      (hget a pl (S (S k))) 1 2) pl (S k).
Proof. reflexivity. Qed.

Lemma sort_heap_perm pl n : forall a,
  pl + n - 1 < length a -> Permutation (sort_heap less a pl n) a.
Proof.
  induction n as [|m IH]; intros a Hlen; [reflexivity|].
  destruct m as [|k]; [reflexivity|].
  rewrite sort_heap_SS.
  rewrite IH by (rewrite length_sift; unfold hupd; rewrite length_upd; lia).
  rewrite sift_perm by (unfold hupd; rewrite ?length_upd; lia).
  unfold hupd, hget. replace (pl + 1 - 1) with pl by lia.
  rewrite perm_hole by lia. rewrite upd_get; reflexivity.
Qed.

Lemma length_heapify pl n l : forall a, length (heapify less a pl n l) = length a.
Proof. induction l as [|l IH]; intros a; simpl; [reflexivity|]. rewrite IH, length_sift; reflexivity. Qed.

Lemma aheapsort_perm a pl n :
  pl + n - 1 < length a -> Permutation (aheapsort less a pl n) a.
Proof.
  intros H; unfold aheapsort.
  assert (H2 : n / 2 <= n) by (apply Nat.Div0.div_le_upper_bound; lia).
  rewrite sort_heap_perm.
  - apply heapify_perm; [exact H2 | exact H].
  - rewrite length_heapify; exact H.
Qed.

Lemma length_sort_heap pl n : forall a, length (sort_heap less a pl n) = length a.
Proof.
  induction n as [|m IH]; intros a; [reflexivity|].
  destruct m as [|k]; [reflexivity|].
  rewrite sort_heap_SS, IH, length_sift; unfold hupd; apply length_upd.
Qed.

Lemma length_aheapsort a pl n : length (aheapsort less a pl n) = length a.
Proof. unfold aheapsort; rewrite length_sort_heap, length_heapify; reflexivity. Qed.

Lemma length_shift_down k : forall a vi pl, length (shift_down less a vi pl k) = length a.
Proof.
  induction k as [|k IH]; intros; simpl; [apply length_upd|].
  destruct (less _ _); [rewrite IH|]; apply length_upd.
Qed.

Lemma shift_down_perm k : forall a vi pl,
  pl + k < length a -> Permutation (shift_down less a vi pl k) (upd a (pl + k) vi).
Proof.
  induction k as [|k IH]; intros a vi pl H; simpl.
  - rewrite Nat.add_0_r; reflexivity.
  - destruct (less vi (get a (pl + k))); [|reflexivity].
    rewrite IH by (rewrite length_upd; lia).
    apply perm_hole; lia.
Qed.

Lemma insertion_from_perm count : forall a pl k,
  pl + k + count <= length a -> Permutation (insertion_from less a pl k count) a
  /\ length (insertion_from less a pl k count) = length a.
Proof.
  induction count as [|c IH]; intros a pl k H; simpl; [split; reflexivity|].
  destruct (IH (shift_down less a (get a (pl + k)) pl k) pl (S k)) as [Hp Hl];
    [rewrite length_shift_down; lia|].
  rewrite length_shift_down in Hl. split; [|exact Hl].
  rewrite Hp, shift_down_perm by lia. rewrite upd_get; reflexivity.
Qed.

Lemma insertion_sort_perm a pl pr :
  pl <= pr < length a -> Permutation (insertion_sort less a pl pr) a
  /\ length (insertion_sort less a pl pr) = length a.
Proof. intros H; unfold insertion_sort; apply insertion_from_perm; lia. Qed.

End Heap.

Lemma rlt_true x y : rlt x y = true <-> (x < y)%R.
Proof. unfold rlt; destruct (Rlt_dec x y); split; intros; auto; discriminate. Qed.

Lemma rlt_false x y : rlt x y = false <-> (y <= x)%R.
Proof.
  unfold rlt; destruct (Rlt_dec x y) as [H|H]; split; intros E; try discriminate; auto.
  - lra.
  - lra.
Qed.

Section Keys.
Variable key : nat -> R.

Definition lessk (i j : nat) : bool := rlt (key i) (key j).


Lemma scan_up_spec fuel : forall a piv pi b,
  pi < b -> (key piv <= key (get a b))%R -> b - pi <= fuel ->
  let x := scan_up lessk fuel a piv pi in
  pi < x <= b /\ (key piv <= key (get a x))%R /\ (forall p, pi < p < x -> (key (get a p) < key piv)%R).
Proof.
  induction fuel as [|f IH]; intros a piv pi b Hb Hkb Hf; [lia|].
  cbn [scan_up]; destruct (lessk (get a (S pi)) piv) eqn:E; unfold lessk in E.
  - apply rlt_true in E.
    assert (S pi < b) by (destruct (Nat.eq_dec (S pi) b) as [<-|]; [exfalso; lra | lia]).
    destruct (IH a piv (S pi) b) as [H1 [H2 H3]]; [lia | exact Hkb | lia |].
    split; [lia|]; split; [exact H2|].
    intros p Hp; destruct (Nat.eq_dec p (S pi)) as [->|]; [exact E|]; apply H3; lia.
  - apply rlt_false in E. split; [lia|]; split; [exact E|]; intros; lia.
Qed.

Lemma scan_down_spec fuel : forall a piv pj b,
  b < pj -> (key (get a b) <= key piv)%R -> pj - b <= fuel ->
  let x := scan_down lessk fuel a piv pj in
  b <= x < pj /\ (key (get a x) <= key piv)%R /\ (forall p, x < p < pj -> (key piv < key (get a p))%R).
Proof.
  induction fuel as [|f IH]; intros a piv pj b Hb Hkb Hf; [lia|].
  cbn [scan_down]; destruct (lessk piv (get a (pj - 1))) eqn:E; unfold lessk in E.
  - apply rlt_true in E.
    assert (b < pj - 1) by (destruct (Nat.eq_dec (pj - 1) b) as [<-|]; [exfalso; lra | lia]).
    destruct (IH a piv (pj - 1) b) as [H1 [H2 H3]]; [lia | exact Hkb | lia |].
    split; [lia|]; split; [exact H2|].
    intros p Hp; destruct (Nat.eq_dec p (pj - 1)) as [->|]; [exact E|]; apply H3; lia.
  - apply rlt_false in E. split; [lia|]; split; [exact E|]; intros; lia.
Qed.

Lemma partition_loop_spec pl pr piv fuel : forall a pi pj,
  pl <= pi < pj -> pj <= pr - 1 -> pr < length a ->
  (forall p, pl <= p <= pi -> (key (get a p) <= key piv)%R) ->
  (forall p, pj <= p <= pr -> (key piv <= key (get a p))%R) ->
  pj - pi <= fuel ->
  forall a' x, partition_loop lessk fuel a piv pi pj = (a', x) ->
  Permutation a' a /\ length a' = length a /\ pi < x <= pr - 1 /\
  (forall p, pl <= p < x -> (key (get a' p) <= key piv)%R) /\
  (forall p, x <= p <= pr -> (key piv <= key (get a' p))%R) /\
  (forall p, p <= pi \/ pj <= p -> get a' p = get a p).
Proof.
  induction fuel as [|f IH]; intros a pi pj Hij Hpj Hpr Hlo Hhi Hf a' x E; [lia|].
  cbn [partition_loop] in E.
  destruct (scan_up_spec (length a) a piv pi pj) as [U1 [U2 U3]];
    [lia | apply Hhi; lia | lia |].
  destruct (scan_down_spec (length a) a piv pj pi) as [D1 [D2 D3]];
    [lia | apply Hlo; lia | lia |].
  set (u := scan_up lessk (length a) a piv pi) in *.
  set (d := scan_down lessk (length a) a piv pj) in *.
  destruct (d <=? u) eqn:Edu.
  - injection E as <- <-. apply Nat.leb_le in Edu.
    split; [reflexivity|]; split; [reflexivity|]; split; [lia|]; split; [|split].
    + intros p Hp. destruct (le_lt_dec p pi); [apply Hlo; lia|]. apply Rlt_le, U3; lia.
    + intros p Hp. destruct (Nat.eq_dec p u) as [->|]; [exact U2|].
      destruct (le_lt_dec pj p); [apply Hhi; lia|]. apply Rlt_le, D3; lia.
    + reflexivity.
  - apply Nat.leb_gt in Edu.
    assert (Hu : u < length a) by lia. assert (Hd : d < length a) by lia.
    destruct (IH (swap a u d) u d) with (a' := a') (x := x) as [P1 [P2 [P3 [P4 [P5 P6]]]]];
      [lia | lia | rewrite length_swap; lia | | | lia | exact E |].
    + intros p Hp. destruct (Nat.eq_dec p u) as [->|].
      * rewrite get_swap_l by lia. exact D2.
      * rewrite get_swap_other by lia.
        destruct (le_lt_dec p pi); [apply Hlo; lia|]. apply Rlt_le, U3; lia.
    + intros p Hp. destruct (Nat.eq_dec p d) as [->|].
      * rewrite get_swap_r by lia. exact U2.
      * rewrite get_swap_other by lia.
        destruct (le_lt_dec pj p); [apply Hhi; lia|]. apply Rlt_le, D3; lia.
    + rewrite length_swap in P2.
      split; [rewrite P1; apply perm_swap_arr; lia|]; split; [exact P2|].
      split; [lia|]; split; [exact P4|]; split; [exact P5|].
      intros p Hp. rewrite P6 by lia. apply get_swap_other; lia.
Qed.

End Keys.

Section Keys.
Variable key : nat -> R.

Lemma cswap_spec a i j :
  i <> j -> i < length a -> j < length a ->
  let c := if lessk key (get a i) (get a j) then swap a i j else a in
  (key (get c j) <= key (get c i))%R /\ Permutation c a /\ length c = length a /\
  (forall p, p <> i -> p <> j -> get c p = get a p) /\
  ((key (get c i) = key (get a i) /\ key (get c j) = key (get a j)) \/ (key (get c i) = key (get a j) /\ key (get c j) = key (get a i))).
Proof.
  intros Hij Hi Hj c; subst c.
  destruct (lessk key (get a i) (get a j)) eqn:E; unfold lessk in E.
  - apply rlt_true in E.
    rewrite get_swap_l, get_swap_r by lia.
    split; [lra|]; split; [apply perm_swap_arr; lia|]; split; [apply length_swap|].
    split; [intros; apply get_swap_other; lia|]. right; split; reflexivity.
  - apply rlt_false in E.
    split; [exact E|]; split; [reflexivity|]; split; [reflexivity|].
    split; [reflexivity|]. left; split; reflexivity.
Qed.

Lemma partition_spec a pl pr :
  pl + SMALL_QUICKSORT < pr -> pr < length a ->
  forall a' x, qs_partition (lessk key) a pl pr = (a', x) ->
  Permutation a' a /\ length a' = length a /\ pl < x < pr /\
  (forall p, pl <= p < x -> (key (get a' p) <= key (get a' x))%R) /\
  (forall p, x < p <= pr -> (key (get a' x) <= key (get a' p))%R) /\
  (forall p, p < pl \/ pr < p -> get a' p = get a p).
Proof.
  unfold SMALL_QUICKSORT; intros Hs Hpr a' x E.
  unfold qs_partition in E. cbv zeta in E.
  set (pm := pl + (pr - pl) / 2) in E.
  assert (Hpm : pl < pm < pr - 1).
  { pose proof (Nat.div_mod (pr - pl) 2 ltac:(lia)).
    pose proof (Nat.mod_upper_bound (pr - pl) 2 ltac:(lia)). unfold pm; lia. }
  destruct (cswap_spec a pm pl) as [A1 [B1 [C1 [D1 E1]]]]; [lia | lia | lia |].
  set (a1 := if lessk key (get a pm) (get a pl) then swap a pm pl else a) in *.
  destruct (cswap_spec a1 pr pm) as [A2 [B2 [C2 [D2 E2]]]]; [lia | lia | lia |].
  set (a2 := if lessk key (get a1 pr) (get a1 pm) then swap a1 pr pm else a1) in *.
  destruct (cswap_spec a2 pm pl) as [A3 [B3 [C3 [D3 E3]]]]; [lia | lia | lia |].
  set (a3 := if lessk key (get a2 pm) (get a2 pl) then swap a2 pm pl else a2) in *.
  assert (M1 : (key (get a3 pl) <= key (get a3 pm))%R) by exact A3.
  assert (M2 : (key (get a3 pm) <= key (get a3 pr))%R).
  { rewrite (D3 pr) by lia. rewrite (D2 pl) in E3 by lia.
    destruct E1 as [[F1 G1]|[F1 G1]]; destruct E2 as [[F2 G2]|[F2 G2]];
      destruct E3 as [[F3 G3]|[F3 G3]]; lra. }
  set (piv := get a3 pm) in E.
  set (a4 := swap a3 pm (pr - 1)) in E.
  assert (L4 : length a4 = length a) by (unfold a4; rewrite length_swap; lia).
  assert (G4l : get a4 pl = get a3 pl) by (apply get_swap_other; lia).
  assert (G4r : get a4 pr = get a3 pr) by (apply get_swap_other; lia).
  assert (G4m : get a4 (pr - 1) = piv) by (apply get_swap_r; lia).
  destruct (partition_loop (lessk key) (length a4) a4 piv pl (pr - 1)) as [a5 x5] eqn:E5.
  destruct (partition_loop_spec key pl pr piv (length a4) a4 pl (pr - 1))
    with (a' := a5) (x := x5) as [P1 [P2 [P3 [P4 [P5 P6]]]]];
    [lia | lia | lia | | | lia | exact E5 |].
  { intros p Hp; replace p with pl by lia; rewrite G4l; exact M1. }
  { intros p Hp; destruct (Nat.eq_dec p pr) as [->|]; [rewrite G4r; exact M2|].
    replace p with (pr - 1) by lia; rewrite G4m; apply Rle_refl. }
  injection E as <- <-.
  assert (G5 : get a5 (pr - 1) = piv) by (rewrite P6 by lia; exact G4m).
  assert (Hx : x5 < length a5) by lia. assert (Hr : pr - 1 < length a5) by lia.
  assert (Gx : get (swap a5 x5 (pr - 1)) x5 = piv) by (rewrite get_swap_l by lia; exact G5).
  split.
  { rewrite perm_swap_arr by lia. rewrite P1.
    unfold a4; rewrite perm_swap_arr by lia. rewrite B3, B2, B1; reflexivity. }
  split; [rewrite length_swap; lia|].
  split; [lia|].
  split; [|split].
  - intros p Hp. rewrite Gx, get_swap_other by lia. apply P4; lia.
  - intros p Hp. rewrite Gx.
    destruct (Nat.eq_dec p (pr - 1)) as [->|].
    + rewrite get_swap_r by lia. apply P5; lia.
    + rewrite get_swap_other by lia. apply P5; lia.
  - intros p Hp. rewrite get_swap_other by lia. rewrite P6 by lia.
    unfold a4; rewrite get_swap_other by lia.
    rewrite D3, D2, D1 by lia. reflexivity.
Qed.

End Keys.

Section Keys.
Variable key : nat -> R.

Definition seg_ok (n : nat) (s : nat * nat * Z) : Prop :=
  let '(pl, pr, _) := s in pl <= pr < n.

Lemma qs_while_perm n fuel : forall a pl pr cd st,
  length a = n -> pl <= pr < n -> Forall (seg_ok n) st ->
  forall a' pl' pr' cd' st',
  qs_while (lessk key) fuel a pl pr cd st = (a', pl', pr', cd', st') ->
  Permutation a' a /\ length a' = n /\ pl' <= pr' < n /\ Forall (seg_ok n) st'.
Proof.
  induction fuel as [|f IH]; intros a pl pr cd st Hl Hs Hst a' pl' pr' cd' st' E;
    cbn [qs_while] in E.
  - injection E as <- <- <- <- <-. auto.
  - destruct (SMALL_QUICKSORT <? pr - pl) eqn:Es; [|injection E as <- <- <- <- <-; auto].
    apply Nat.ltb_lt in Es.
    destruct (qs_partition (lessk key) a pl pr) as [b x] eqn:Ep.
    destruct (partition_spec key a pl pr) with (a' := b) (x := x)
      as [P1 [P2 [P3 _]]]; [lia | lia | exact Ep |].
    destruct (x - pl <? pr - x);
      (edestruct IH as [Q1 [Q2 [Q3 Q4]]]; [| | | exact E |];
       [lia | lia | constructor; [simpl; lia | exact Hst] |
        split; [rewrite Q1; exact P1 | auto]]).
Qed.

Lemma qs_loop_perm n fuel : forall a pl pr cd st,
  length a = n -> pl <= pr < n -> Forall (seg_ok n) st ->
  Permutation (qs_loop (lessk key) fuel a pl pr cd st) a.
Proof.
  induction fuel as [|f IH]; intros a pl pr cd st Hl Hs Hst; [reflexivity|].
  cbn [qs_loop].
  destruct (cd <? 0)%Z.
  - pose proof (aheapsort_perm (lessk key) a pl (pr - pl + 1) ltac:(lia)) as Hp.
    pose proof (length_aheapsort (lessk key) a pl (pr - pl + 1)) as Hlen.
    destruct st as [|[[l r] d] st]; [exact Hp|].
    inversion Hst as [|? ? Hs' Hst']; subst. simpl in Hs'.
    rewrite IH; [exact Hp | lia | lia | exact Hst'].
  - destruct (qs_while (lessk key) (length a) a pl pr cd st) as [[[[b l] r] d] st'] eqn:E.
    destruct (qs_while_perm n (length a) a pl pr cd st Hl Hs Hst _ _ _ _ _ E)
      as [Q1 [Q2 [Q3 Q4]]].
    destruct (insertion_sort_perm (lessk key) b l r ltac:(lia)) as [I1 I2].
    destruct st' as [|[[l' r'] d'] st'']; [rewrite I1; exact Q1|].
    inversion Q4 as [|? ? Hs' Hst']; subst. simpl in Hs'.
    rewrite IH; [rewrite I1; exact Q1 | lia | lia | exact Hst'].
Qed.

Lemma aquicksort_perm n : Permutation (aquicksort (lessk key) n) (seq 0 n).
Proof.
  destruct n as [|m]; [reflexivity|].
  unfold aquicksort. apply qs_loop_perm with (n := S m);
    [apply length_seq | lia | constructor].
Qed.

Lemma aquicksort_small n :
  n <= S SMALL_QUICKSORT ->
  aquicksort (lessk key) n = fold_left (ins_list (lessk key)) (seq 0 n) [].
Proof.
  unfold SMALL_QUICKSORT; intros Hn.
  destruct n as [|m]; [reflexivity|].
  unfold aquicksort; cbn [qs_loop].
  replace (Z.of_nat (2 * Nat.log2 (S m)) <? 0)%Z with false
    by (symmetry; apply Z.ltb_ge; lia).
  rewrite length_seq. cbn [qs_while].
  replace (SMALL_QUICKSORT <? S m - 1 - 0) with false
    by (symmetry; apply Nat.ltb_ge; unfold SMALL_QUICKSORT; lia).
  unfold insertion_sort. replace (S m - 1 - 0) with m by lia.
  pose proof (insertion_from_list (lessk key) (seq 1 m) [0] [] []) as Hi.
  rewrite !app_nil_r, length_seq in Hi. cbn [length app] in Hi.
  exact Hi.
Qed.

(** Order of the ascending [argsort]: by score, equal scores by index. *)
Definition asc (i j : nat) : Prop := (key i < key j)%R \/ (key i = key j /\ i < j).

Lemma ins_rev_hd x z ys :
  HdRel (fun u v => asc v u) x ys -> asc z x -> HdRel (fun u v => asc v u) x (ins_rev (lessk key) z ys).
Proof.
  intros H Hz; destruct ys as [|y ys]; simpl; [now constructor|].
  destruct (lessk key z y); [inversion H; now constructor | now constructor].
Qed.

Lemma ins_rev_sorted z ys :
  Sorted (fun u v => asc v u) ys -> Forall (fun j => j < z) ys ->
  Sorted (fun u v => asc v u) (ins_rev (lessk key) z ys).
Proof.
  induction ys as [|x ys IH]; intros Hs Hlt; simpl; [now repeat constructor|].
  inversion Hs as [|? ? Hr Hhd]; inversion Hlt as [|? ? Hxz Hrlt]; subst.
  destruct (lessk key z x) eqn:E; unfold lessk in E.
  - apply rlt_true in E. constructor; [now apply IH|].
    apply ins_rev_hd; [exact Hhd | left; exact E].
  - apply rlt_false in E. constructor; [exact Hs|]. constructor.
    destruct (Rle_lt_or_eq_dec _ _ E) as [H|H]; [left; exact H | right; split; [exact H | exact Hxz]].
Qed.

Lemma ins_list_sorted p z :
  Sorted asc p -> Forall (fun j => j < z) p -> Sorted asc (ins_list (lessk key) p z).
Proof.
  intros Hs Hlt. unfold ins_list.
  apply (sorted_rev (fun u v => asc v u)).
  apply ins_rev_sorted; [exact (sorted_rev _ _ Hs)|].
  apply Forall_forall; intros x Hx; apply in_rev in Hx.
  rewrite Forall_forall in Hlt; exact (Hlt x Hx).
Qed.

Lemma fold_ins_sorted (m k : nat) (acc : list nat) :
  Sorted asc acc -> Forall (fun j => j < k) acc ->
  Sorted asc (fold_left (ins_list (lessk key)) (seq k m) acc).
Proof.
  revert k acc; induction m as [|m IH]; intros k acc Hs Hlt; simpl; [exact Hs|].
  apply IH; [now apply ins_list_sorted|].
  apply Forall_forall; intros x Hx.
  apply (Permutation_in _ (ins_list_perm _ acc k)) in Hx.
  destruct Hx as [<-|Hx]; [lia|].
  rewrite Forall_forall in Hlt; specialize (Hlt x Hx); lia.
Qed.

Lemma aquicksort_sorted n :
  n <= S SMALL_QUICKSORT -> Sorted asc (aquicksort (lessk key) n).
Proof.
  intros Hn; rewrite aquicksort_small by exact Hn.
  apply fold_ins_sorted; constructor.
Qed.

End Keys.

(** *** [aquicksort] sorts by key at every length

    The heapsort fallback, the insertion sort of short segments and the
    partition steps each keep the pairs outside the pending segments in
    key order; when no segment is pending the array is sorted by key. *)

(** The entries between [l] and [r], and the split of an array around them. *)
Definition mid (a : list nat) (l r : nat) : list nat := firstn (S r - l) (skipn l a).

Lemma split_mid a l r :
  l <= S r -> a = firstn l a ++ mid a l r ++ skipn (S r) a.
Proof.
  intros H; unfold mid.
  rewrite <- (firstn_skipn l a) at 1. f_equal.
  rewrite <- (firstn_skipn (S r - l) (skipn l a)) at 1. f_equal.
  rewrite skipn_skipn. f_equal. lia.
Qed.

Lemma length_mid a l r : S r <= length a -> l <= S r -> length (mid a l r) = S r - l.
Proof. intros H1 H2; unfold mid; rewrite length_firstn, length_skipn; lia. Qed.

Lemma get_mid a l r p : l <= p <= r -> get a p = nth (p - l) (mid a l r) 0.
Proof.
  intros H; unfold mid, get. rewrite nth_firstn.
  replace (p - l <? S r - l) with true by (symmetry; apply Nat.ltb_lt; lia).
  rewrite nth_skipn. f_equal. lia.
Qed.

Lemma perm_frame_within a a' l r :
  r < length a -> length a' = length a -> Permutation a' a ->
  (forall p, p < l \/ r < p -> get a' p = get a p) ->
  forall p, l <= p <= r -> exists q, l <= q <= r /\ get a' p = get a q.
Proof.
  intros Hr Hl Hp Hf p Hlp.
  assert (Epre : firstn l a' = firstn l a).
  { apply nth_ext with 0 0; [rewrite !length_firstn; lia|].
    intros k Hk; rewrite length_firstn in Hk. rewrite !nth_firstn.
    destruct (k <? l) eqn:E; [|reflexivity]. apply Nat.ltb_lt in E.
    apply (Hf k); lia. }
  assert (Epost : skipn (S r) a' = skipn (S r) a).
  { apply nth_ext with 0 0; [rewrite !length_skipn; lia|].
    intros k Hk. rewrite !nth_skipn. apply (Hf (S r + k)); lia. }
  assert (Hm : Permutation (mid a' l r) (mid a l r)).
  { rewrite (split_mid a' l r), (split_mid a l r) in Hp by lia.
    rewrite Epre, Epost in Hp.
    apply Permutation_app_inv_l in Hp. apply Permutation_app_inv_r in Hp. exact Hp. }
  rewrite (get_mid a' l r p Hlp).
  assert (Hin : In (nth (p - l) (mid a' l r) 0) (mid a l r)).
  { apply (Permutation_in _ Hm), nth_In. rewrite length_mid; lia. }
  destruct (In_nth _ _ 0 Hin) as [k [Hk Ek]].
  rewrite length_mid in Hk by lia.
  exists (l + k); split; [lia|]. rewrite <- Ek, (get_mid a l r (l + k)) by lia.
  f_equal; lia.
Qed.

Lemma sorted_nth {A} (Rel : A -> A -> Prop) (d : A) :
  (forall x y z, Rel x y -> Rel y z -> Rel x z) ->
  forall l, Sorted Rel l -> forall i j, i < j < length l -> Rel (nth i l d) (nth j l d).
Proof.
  intros Htr l Hs. apply Sorted_StronglySorted in Hs; [|exact Htr].
  induction Hs as [|x l Hs IH Hf]; intros i j Hij; simpl in Hij; [lia|].
  destruct i as [|i]; destruct j as [|j]; try lia; simpl.
  - rewrite Forall_forall in Hf. apply Hf, nth_In; lia.
  - apply IH; lia.
Qed.

Lemma nth_sorted {A} (Rel : A -> A -> Prop) (d : A) (l : list A) :
  (forall i j, i < j < length l -> Rel (nth i l d) (nth j l d)) -> Sorted Rel l.
Proof.
  induction l as [|x l IH]; intros H; [constructor|].
  constructor.
  - apply IH; intros i j Hij; apply (H (S i) (S j)); simpl; lia.
  - destruct l as [|y l]; constructor. apply (H 0 1); simpl; lia.
Qed.


Lemma half_spec c : 2 * (c / 2) <= c <= 2 * (c / 2) + 1.
Proof.
  pose proof (Nat.div_mod c 2 ltac:(lia)). pose proof (Nat.mod_upper_bound c 2 ltac:(lia)). lia.
Qed.

Lemma hget_hupd a pl i x v :
  1 <= i -> 1 <= x -> pl + i - 1 < length a ->
  hget (hupd a pl i v) pl x = if x =? i then v else hget a pl x.
Proof.
  intros Hi Hx Hl; unfold hget, hupd.
  destruct (Nat.eqb_spec x i) as [->|Hne].
  - apply get_upd_eq; exact Hl.
  - apply get_upd_neq; lia.
Qed.

Section HeapKeys.
Variable key : nat -> R.

Definition hk (a : list nat) (pl c : nat) : R := key (hget a pl c).

Lemma hk_hupd a pl i x v :
  1 <= i -> 1 <= x -> pl + i - 1 < length a ->
  hk (hupd a pl i v) pl x = if x =? i then key v else hk a pl x.
Proof.
  intros Hi Hx Hl; unfold hk; rewrite hget_hupd by assumption.
  destruct (x =? i); reflexivity.
Qed.

Lemma sift_frame fuel : forall a pl n tmp i j,
  1 <= i -> i < j ->
  forall p, p < pl + i - 1 \/ pl + n - 1 < p ->
  (i <= n -> get (sift (lessk key) fuel a pl n tmp i j) p = get a p).
Proof.
  induction fuel as [|f IH]; intros a pl n tmp i j Hi Hij p Hp Hin; cbn [sift].
  - unfold hupd; apply get_upd_neq; lia.
  - destruct (j <=? n) eqn:Ej; [apply Nat.leb_le in Ej|unfold hupd; apply get_upd_neq; lia].
    set (c := if (j <? n) && lessk key (hget a pl j) (hget a pl (j + 1)) then j + 1 else j).
    assert (Hc : (c = j \/ c = j + 1) /\ c <= n).
    { unfold c; destruct (Nat.ltb_spec j n); simpl; [destruct (lessk _ _ _)|]; split; auto; lia. }
    destruct (lessk key tmp (hget a pl c)).
    + rewrite (IH _ pl n tmp c (c + c)); [| lia | lia | lia | lia].
      unfold hupd; apply get_upd_neq; lia.
    + unfold hupd; apply get_upd_neq; lia.
Qed.

Lemma max_child a pl n i :
  1 <= i -> i + i <= n -> pl + n - 1 < length a ->
  let c := if (i + i <? n) && lessk key (hget a pl (i + i)) (hget a pl (i + i + 1))
           then i + i + 1 else i + i in
  (c = i + i \/ c = i + i + 1) /\ c <= n /\
  forall d, 2 <= d <= n -> d / 2 = i -> (hk a pl d <= hk a pl c)%R.
Proof.
  intros Hi Hj Hl c.
  assert (Hd : forall d, d / 2 = i -> d = i + i \/ d = i + i + 1)
    by (intros d Hd; pose proof (half_spec d); lia).
  unfold c, hk, lessk.
  destruct (Nat.ltb_spec (i + i) n) as [Hlt|Hge]; simpl.
  - destruct (rlt _ _) eqn:E.
    + apply rlt_true in E. split; [auto|split; [lia|]].
      intros d Hd2 Hdi; destruct (Hd d Hdi) as [->| ->]; lra.
    + apply rlt_false in E. split; [auto|split; [lia|]].
      intros d Hd2 Hdi; destruct (Hd d Hdi) as [->| ->]; lra.
  - split; [auto|split; [lia|]].
    intros d Hd2 Hdi; destruct (Hd d Hdi) as [->| ->]; [lra | lia].
Qed.

Lemma sift_heap fuel : forall a pl n tmp i i0,
  1 <= i0 <= i -> i <= n -> n < fuel + i -> pl + n - 1 < length a ->
  (forall c, 2 <= c <= n -> i0 <= c / 2 -> c / 2 <> i -> c <> i ->
     (hk a pl c <= hk a pl (c / 2))%R) ->
  (i0 < i -> (key tmp <= hk a pl (i / 2))%R /\
     forall c, 2 <= c <= n -> c / 2 = i -> (hk a pl c <= hk a pl (i / 2))%R) ->
  forall c, 2 <= c <= n -> i0 <= c / 2 ->
  (hk (sift (lessk key) fuel a pl n tmp i (i + i)) pl c
   <= hk (sift (lessk key) fuel a pl n tmp i (i + i)) pl (c / 2))%R.
Proof.
  induction fuel as [|f IH]; intros a pl n tmp i i0 Hi Hin Hf Hl H1 H2; [lia|].
  cbn [sift].
  assert (Hput : (forall c, 2 <= c <= n -> c / 2 = i -> (hk a pl c <= key tmp)%R) ->
    forall c, 2 <= c <= n -> i0 <= c / 2 ->
    (hk (hupd a pl i tmp) pl c <= hk (hupd a pl i tmp) pl (c / 2))%R).
  { intros Hch c Hc Hc0. pose proof (half_spec c).
    rewrite !hk_hupd by lia.
    destruct (Nat.eqb_spec c i) as [->|Hci].
    - destruct (Nat.eqb_spec (i / 2) i); [lia|]. apply H2; lia.
    - destruct (Nat.eqb_spec (c / 2) i) as [Hc2|Hc2].
      + apply Hch; assumption.
      + apply H1; assumption. }
  destruct (Nat.leb_spec (i + i) n) as [Hj|Hj].
  - destruct (max_child a pl n i ltac:(lia) Hj Hl) as [Hc [Hcn Hmax]].
    set (c := if (i + i <? n) && lessk key (hget a pl (i + i)) (hget a pl (i + i + 1))
              then i + i + 1 else i + i) in *.
    destruct (lessk key tmp (hget a pl c)) eqn:Et.
    + unfold lessk in Et; apply rlt_true in Et.
      apply (IH _ pl n tmp c i0); [lia | lia | lia | unfold hupd; rewrite length_upd; lia | |].
      * intros d Hd Hd0 Hdc Hdc'. pose proof (half_spec d).
        rewrite !hk_hupd by lia.
        destruct (Nat.eqb_spec d i) as [->|Hdi].
        -- destruct (Nat.eqb_spec (i / 2) i); [lia|].
           apply (proj2 (H2 ltac:(lia))); [lia|]. pose proof (half_spec c); lia.
        -- destruct (Nat.eqb_spec (d / 2) i) as [Hd2|Hd2].
           ++ apply Hmax; lia.
           ++ apply H1; lia.
      * intros Hc0. pose proof (half_spec c).
        replace (c / 2) with i by lia.
        rewrite (hk_hupd a pl i i) by lia. rewrite Nat.eqb_refl.
        split; [unfold hk in Et; lra|].
        intros d Hd Hdc. pose proof (half_spec d).
        rewrite hk_hupd by lia.
        destruct (Nat.eqb_spec d i); [lia|].
        change (key (hget a pl c)) with (hk a pl c).
        replace (hk a pl c) with (hk a pl (d / 2)) by (f_equal; lia).
        apply H1; lia.
    + unfold lessk in Et; apply rlt_false in Et.
      apply Hput. intros d Hd Hd2. specialize (Hmax d Hd Hd2). unfold hk in *; lra.
  - apply Hput. intros d Hd Hd2. pose proof (half_spec d). lia.
Qed.

Lemma length_hupd a pl i v : length (hupd a pl i v) = length a.
Proof. apply length_upd. Qed.

Lemma heapify_heap pl n l : forall a,
  l <= n -> pl + n - 1 < length a ->
  (forall c, 2 <= c <= n -> l < c / 2 -> (hk a pl c <= hk a pl (c / 2))%R) ->
  forall c, 2 <= c <= n -> (hk (heapify (lessk key) a pl n l) pl c
                          <= hk (heapify (lessk key) a pl n l) pl (c / 2))%R.
Proof.
  induction l as [|l IH]; intros a Hl Hlen Hh c Hc; cbn [heapify].
  - apply Hh; [exact Hc|]. pose proof (half_spec c); lia.
  - apply IH; [lia | rewrite length_sift; exact Hlen | | exact Hc].
    intros d Hd Hd0.
    apply (sift_heap n a pl n (hget a pl (S l)) (S l) (S l)); [lia | lia | lia | exact Hlen | | | lia | lia].
    + intros e He He0 He1 He2. apply Hh; lia.
    + intros; lia.
Qed.

Lemma root_max a pl m :
  (forall c, 2 <= c <= m -> (hk a pl c <= hk a pl (c / 2))%R) ->
  forall c, 1 <= c <= m -> (hk a pl c <= hk a pl 1)%R.
Proof.
  intros Hh c. induction c as [c IH] using (well_founded_induction lt_wf).
  intros Hc. destruct (Nat.eq_dec c 1) as [->|Hne]; [lra|].
  pose proof (half_spec c).
  apply Rle_trans with (hk a pl (c / 2)); [apply Hh; lia|].
  apply IH; lia.
Qed.

Lemma sift_frame' fuel a pl n tmp i :
  1 <= i <= n ->
  forall p, p < pl + i - 1 \/ pl + n - 1 < p ->
  get (sift (lessk key) fuel a pl n tmp i (i + i)) p = get a p.
Proof. intros Hi p Hp; apply sift_frame; lia. Qed.

Lemma heapify_frame pl n l : forall a,
  l <= n -> forall p, p < pl \/ pl + n - 1 < p ->
  get (heapify (lessk key) a pl n l) p = get a p.
Proof.
  induction l as [|l IH]; intros a Hl p Hp; cbn [heapify]; [reflexivity|].
  rewrite IH by lia. apply sift_frame'; lia.
Qed.

Lemma sort_heap_frame pl m : forall a,
  pl + m - 1 < length a ->
  forall p, p < pl \/ pl + m - 1 < p -> get (sort_heap (lessk key) a pl m) p = get a p.
Proof.
  induction m as [|m IH]; intros a Hl p Hp; [reflexivity|].
  destruct m as [|k]; [reflexivity|].
  rewrite sort_heap_SS. rewrite IH; [| rewrite length_sift, length_hupd; lia | lia].
  rewrite sift_frame' by lia. unfold hupd; apply get_upd_neq; lia.
Qed.

Lemma sort_heap_sorted pl N m : forall a,
  pl + N - 1 < length a -> m <= N ->
  (forall c, 2 <= c <= m -> (hk a pl c <= hk a pl (c / 2))%R) ->
  (forall c d, m < c < d -> d <= N -> (hk a pl c <= hk a pl d)%R) ->
  (forall c d, 1 <= c <= m -> m < d <= N -> (hk a pl c <= hk a pl d)%R) ->
  forall c d, 1 <= c < d -> d <= N ->
  (hk (sort_heap (lessk key) a pl m) pl c <= hk (sort_heap (lessk key) a pl m) pl d)%R.
Proof.
  induction m as [|m IH]; intros a Hlen Hm HH HS HB c d Hcd HdN.
  - apply HS; lia.
  - destruct m as [|k].
    + cbn [sort_heap]. destruct (Nat.eq_dec c 1) as [->|]; [apply HB; lia | apply HS; lia].
    + rewrite sort_heap_SS.
      set (M := S (S k)) in *.
      set (a1 := hupd a pl M (hget a pl 1)).
      set (tmp := hget a pl M).
      set (a2 := sift (lessk key) (S k) a1 pl (S k) tmp 1 2).
      assert (Hl1 : length a1 = length a) by apply length_hupd.
      assert (Hl2 : length a2 = length a) by (unfold a2; rewrite length_sift; exact Hl1).
      assert (Ha1 : forall x, 1 <= x -> x <> M -> hk a1 pl x = hk a pl x).
      { intros x Hx Hxm; unfold a1; rewrite hk_hupd by lia.
        destruct (Nat.eqb_spec x M); [lia | reflexivity]. }
      assert (Ha1M : hk a1 pl M = hk a pl 1).
      { unfold a1; rewrite hk_hupd by lia. rewrite Nat.eqb_refl; reflexivity. }
      assert (Hfr : forall x, S k < x -> hk a2 pl x = hk a1 pl x).
      { intros x Hx; unfold hk, hget, a2. rewrite sift_frame'; [reflexivity | lia | lia]. }
      assert (Hroot : forall x, 1 <= x <= M -> (hk a pl x <= hk a pl 1)%R)
        by (apply root_max; exact HH).
      assert (Hwithin : forall x, 1 <= x <= S k -> exists q, 1 <= q <= M /\ hk a2 pl x = hk a pl q).
      { intros x Hx.
        set (b := hupd a1 pl 1 tmp).
        assert (Hb : length b = length a) by (unfold b; rewrite length_hupd; exact Hl1).
        destruct (perm_frame_within b a2 pl (pl + S k - 1)) with (p := pl + x - 1)
          as [q [Hq Eq]].
        - rewrite Hb; lia.
        - rewrite Hl2, Hb; reflexivity.
        - unfold a2, b. apply sift_perm; rewrite ?Hl1; lia.
        - intros p Hp. unfold a2, b. rewrite sift_frame' by lia.
          unfold hupd; rewrite get_upd_neq by lia. reflexivity.
        - lia.
        - destruct (Nat.eq_dec q pl) as [->|Hq'].
          + exists M; split; [lia|]. unfold hk, hget at 1. rewrite Eq.
            unfold b, hupd. replace (pl + 1 - 1) with pl by lia. rewrite get_upd_eq by lia. reflexivity.
          + exists (q - pl + 1); split; [lia|].
            rewrite <- Ha1 by lia. unfold hk, hget at 1. rewrite Eq.
            unfold b, hupd. rewrite get_upd_neq by lia. unfold hget. do 2 f_equal. lia. }
      apply IH; [rewrite Hl2; lia | lia | | | | lia | lia].
      * intros x Hx. unfold a2.
        apply (sift_heap (S k) a1 pl (S k) tmp 1 1); [lia | lia | lia | lia | | | lia | pose proof (half_spec x); lia].
        -- intros y Hy Hy0 Hy1 Hy2. pose proof (half_spec y).
           rewrite !Ha1 by lia. apply HH; lia.
        -- intros; lia.
      * intros x y Hxy HyN. rewrite !Hfr by lia.
        destruct (Nat.eq_dec x M) as [->|Hx].
        -- rewrite Ha1M, Ha1 by lia. apply HB; lia.
        -- rewrite !Ha1 by lia. apply HS; lia.
      * intros x y Hx Hy. destruct (Hwithin x Hx) as [q [Hq ->]].
        rewrite Hfr by lia.
        destruct (Nat.eq_dec y M) as [->|Hy'].
        -- rewrite Ha1M. apply Hroot; lia.
        -- rewrite Ha1 by lia. apply HB; lia.
Qed.

Lemma aheapsort_sorted a pl n :
  1 <= n -> pl + n - 1 < length a ->
  forall p q, pl <= p < q -> q <= pl + n - 1 ->
  (key (get (aheapsort (lessk key) a pl n) p) <= key (get (aheapsort (lessk key) a pl n) q))%R.
Proof.
  intros Hn Hl p q Hpq Hq. unfold aheapsort.
  assert (H2 : n / 2 <= n) by (apply Nat.Div0.div_le_upper_bound; lia).
  pose proof (sort_heap_sorted pl n n (heapify (lessk key) a pl n (n / 2))) as S.
  unfold hk, hget in S.
  replace p with (pl + (p - pl + 1) - 1) by lia.
  replace q with (pl + (q - pl + 1) - 1) by lia.
  apply S; [rewrite length_heapify; lia | lia | | intros; lia | intros; lia | lia | lia].
  intros c Hc. pose proof (heapify_heap pl n (n / 2) a H2 Hl) as HH.
  unfold hk, hget in HH. apply HH; [|exact Hc].
  intros d Hd Hd2. pose proof (Nat.Div0.div_le_mono d n 2 ltac:(lia)). lia.
Qed.

Lemma aheapsort_frame a pl n :
  pl + n - 1 < length a ->
  forall p, p < pl \/ pl + n - 1 < p -> get (aheapsort (lessk key) a pl n) p = get a p.
Proof.
  intros Hl p Hp. unfold aheapsort.
  assert (H2 : n / 2 <= n) by (apply Nat.Div0.div_le_upper_bound; lia).
  rewrite sort_heap_frame by (rewrite ?length_heapify; lia).
  apply heapify_frame; lia.
Qed.

End HeapKeys.


Lemma app_frame {A} (q m1 m2 s : list A) (d : A) p :
  length m1 = length m2 -> p < length q \/ length q + length m1 <= p ->
  nth p (q ++ m1 ++ s) d = nth p (q ++ m2 ++ s) d.
Proof.
  intros Hm [Hp|Hp].
  - rewrite !app_nth1 by lia; reflexivity.
  - rewrite !app_nth2 by lia. rewrite Hm; reflexivity.
Qed.

Lemma skipn_cons_get a n :
  n < length a -> skipn n a = get a n :: skipn (S n) a.
Proof.
  unfold get; revert n; induction a as [|y a IH]; intros [|n] H; simpl in *; try lia; auto.
  apply IH; lia.
Qed.

Section SegKeys.
Variable key : nat -> R.

Definition le_k (u v : nat) : Prop := (key u <= key v)%R.

Lemma ins_rev_hd_k x z ys :
  HdRel (fun u v => le_k v u) x ys -> le_k z x ->
  HdRel (fun u v => le_k v u) x (ins_rev (lessk key) z ys).
Proof.
  intros H Hz; destruct ys as [|y ys]; simpl; [now constructor|].
  destruct (lessk key z y); [inversion H; now constructor | now constructor].
Qed.

Lemma ins_rev_sorted_k z ys :
  Sorted (fun u v => le_k v u) ys -> Sorted (fun u v => le_k v u) (ins_rev (lessk key) z ys).
Proof.
  induction ys as [|x ys IH]; intros Hs; simpl; [now repeat constructor|].
  inversion Hs as [|? ? Hs' Hhd]; subst.
  destruct (lessk key z x) eqn:E; unfold lessk in E.
  - apply rlt_true in E. constructor; [now apply IH|].
    apply ins_rev_hd_k; [exact Hhd | unfold le_k; lra].
  - apply rlt_false in E. constructor; [exact Hs | now constructor].
Qed.

Lemma ins_list_sorted_k p z : Sorted le_k p -> Sorted le_k (ins_list (lessk key) p z).
Proof.
  intros Hs. unfold ins_list.
  apply (sorted_rev (fun u v => le_k v u)).
  apply ins_rev_sorted_k. exact (sorted_rev le_k p Hs).
Qed.

Lemma fold_ins_sorted_k r : forall acc,
  Sorted le_k acc -> Sorted le_k (fold_left (ins_list (lessk key)) r acc).
Proof.
  induction r as [|z r IH]; intros acc Hs; simpl; [exact Hs|].
  apply IH, ins_list_sorted_k, Hs.
Qed.

Lemma insertion_sort_spec a pl pr :
  pl <= pr < length a ->
  (forall p, p < pl \/ pr < p -> get (insertion_sort (lessk key) a pl pr) p = get a p) /\
  (forall p q, pl <= p < q -> q <= pr ->
     (key (get (insertion_sort (lessk key) a pl pr) p)
      <= key (get (insertion_sort (lessk key) a pl pr) q))%R).
Proof.
  intros H.
  set (q0 := firstn pl a). set (x := get a pl).
  set (r := firstn (pr - pl) (skipn (S pl) a)). set (s := skipn (S pr) a).
  assert (Hq0 : length q0 = pl) by (unfold q0; rewrite length_firstn; lia).
  assert (Hr : length r = pr - pl) by (unfold r; rewrite length_firstn, length_skipn; lia).
  assert (Ha : a = q0 ++ [x] ++ r ++ s).
  { unfold q0, x, r, s. rewrite (split_mid a pl pr) at 1 by lia. f_equal.
    unfold mid. replace (S pr - pl) with (S (pr - pl)) by lia.
    rewrite (skipn_cons_get a pl) by lia. cbn [firstn app]. f_equal. }
  assert (Hb : insertion_sort (lessk key) a pl pr
               = q0 ++ fold_left (ins_list (lessk key)) r [x] ++ s).
  { unfold insertion_sort. rewrite Ha at 1.
    pose proof (insertion_from_list (lessk key) r [x] q0 s) as E.
    rewrite Hq0, Hr in E. exact E. }
  assert (HF : length (fold_left (ins_list (lessk key)) r [x]) = length ([x] ++ r)).
  { apply Permutation_length, fold_ins_perm. }
  rewrite Hb. split.
  - intros p Hp. unfold get. rewrite Ha at 1. change ([x] ++ r ++ s) with (([x] ++ r) ++ s). apply app_frame; [exact HF|].
    rewrite HF; simpl; lia.
  - intros p q Hpq Hq.
    assert (HS : Sorted le_k (fold_left (ins_list (lessk key)) r [x]))
      by (apply fold_ins_sorted_k; repeat constructor).
    assert (Hk : forall k, pl <= k <= pr -> get (q0 ++ fold_left (ins_list (lessk key)) r [x] ++ s) k
                 = nth (k - pl) (fold_left (ins_list (lessk key)) r [x]) 0).
    { intros k Hk. unfold get. rewrite app_nth2 by lia. rewrite Hq0.
      apply app_nth1. rewrite HF; simpl; lia. }
    rewrite !Hk by lia.
    apply (sorted_nth le_k 0); [intros u v w; unfold le_k; lra | exact HS |].
    rewrite HF; simpl; lia.
Qed.
End SegKeys.


Section QsKeys.
Variable key : nat -> R.

Definition inseg (s : nat * nat) (p q : nat) : Prop := fst s <= p /\ q <= snd s.

Definition ordered (a : list nat) (P : list (nat * nat)) : Prop :=
  forall p q, p < q < length a -> (forall s, In s P -> ~ inseg s p q) ->
  (key (get a p) <= key (get a q))%R.

Definition sdisj (s t : nat * nat) : Prop := snd s < fst t \/ snd t < fst s.

Definition segs_ok (n : nat) (P : list (nat * nat)) : Prop :=
  Forall (fun s => fst s <= snd s < n) P /\ ForallOrdPairs sdisj P.

Definition sg (t : nat * nat * Z) : nat * nat := (fst (fst t), snd (fst t)).

Fixpoint total (P : list (nat * nat)) : nat :=
  match P with
  | [] => 0
  | s :: P' => S (snd s) - fst s + total P'
  end.

Lemma step_ordered a a' l r sub rest :
  r < length a -> length a' = length a -> Permutation a' a ->
  (forall p, p < l \/ r < p -> get a' p = get a p) ->
  Forall (sdisj (l, r)) rest ->
  ordered a ((l, r) :: rest) ->
  (forall p q, l <= p < q -> q <= r -> (forall s, In s sub -> ~ inseg s p q) ->
     (key (get a' p) <= key (get a' q))%R) ->
  ordered a' (sub ++ rest).
Proof.
  intros Hr Hl Hp Hf Hd Ho Hin p q Hpq Hns.
  assert (Hw := perm_frame_within a a' l r Hr Hl Hp Hf).
  rewrite Forall_forall in Hd.
  assert (Hrest : forall s, In s rest -> ~ inseg s p q)
    by (intros s Hs; apply Hns, in_or_app; right; exact Hs).
  assert (C : (l <= p /\ q <= r) \/ (l <= p <= r /\ r < q) \/ (p < l /\ l <= q <= r) \/
              ((p < l \/ r < p) /\ (q < l \/ r < q))) by lia.
  destruct C as [C|[C|[C|C]]].
  - apply Hin; [lia | lia |]. intros s Hs; apply Hns, in_or_app; left; exact Hs.
  - destruct (Hw p ltac:(lia)) as [p' [Hp' ->]]. rewrite (Hf q) by lia.
    apply Ho; [lia|]. intros s [<-|Hs]; unfold inseg; simpl; [lia|].
    specialize (Hd s Hs); unfold sdisj in Hd; simpl in Hd; lia.
  - destruct (Hw q ltac:(lia)) as [q' [Hq' ->]]. rewrite (Hf p) by lia.
    apply Ho; [lia|]. intros s [<-|Hs]; unfold inseg; simpl; [lia|].
    specialize (Hd s Hs); unfold sdisj in Hd; simpl in Hd; lia.
  - rewrite !Hf by lia. apply Ho; [rewrite <- Hl; lia|].
    intros s [<-|Hs]; [unfold inseg; simpl; lia | apply Hrest, Hs].
Qed.

Lemma sdisj_sub l r l' r' t : l <= l' -> r' <= r -> sdisj (l, r) t -> sdisj (l', r') t.
Proof. unfold sdisj; simpl; lia. Qed.

Lemma split_segs n pl x pr rest :
  pl < x < pr -> segs_ok n ((pl, pr) :: rest) ->
  segs_ok n ((pl, x - 1) :: (x + 1, pr) :: rest) /\
  segs_ok n ((x + 1, pr) :: (pl, x - 1) :: rest) /\
  Forall (sdisj (pl, pr)) rest.
Proof.
  intros Hx [Hv Hd]. inversion Hv as [|? ? Hs Hv']; subst.
  inversion Hd as [|? ? Hd1 Hd']; subst. simpl in Hs.
  assert (E1 : Forall (sdisj (pl, x - 1)) rest)
    by (eapply Forall_impl; [|exact Hd1]; intros t; apply sdisj_sub; lia).
  assert (E2 : Forall (sdisj (x + 1, pr)) rest)
    by (eapply Forall_impl; [|exact Hd1]; intros t; apply sdisj_sub; lia).
  split; [|split; [|exact Hd1]]; split.
  - repeat constructor; simpl; try lia; exact Hv'.
  - constructor; [constructor; [unfold sdisj; simpl; lia | exact E1]|].
    constructor; [exact E2 | exact Hd'].
  - repeat constructor; simpl; try lia; exact Hv'.
  - constructor; [constructor; [unfold sdisj; simpl; lia | exact E2]|].
    constructor; [exact E1 | exact Hd'].
Qed.

Lemma qs_while_sorted n fuel : forall a pl pr cd st,
  length a = n -> segs_ok n ((pl, pr) :: map sg st) -> ordered a ((pl, pr) :: map sg st) ->
  forall a' pl' pr' cd' st',
  qs_while (lessk key) fuel a pl pr cd st = (a', pl', pr', cd', st') ->
  length a' = n /\ Permutation a' a /\ segs_ok n ((pl', pr') :: map sg st') /\
  ordered a' ((pl', pr') :: map sg st') /\
  total ((pl', pr') :: map sg st') <= total ((pl, pr) :: map sg st).
Proof.
  induction fuel as [|f IH]; intros a pl pr cd st Hl Hs Ho a' pl' pr' cd' st' E;
    cbn [qs_while] in E.
  - injection E as <- <- <- <- <-. auto.
  - destruct (SMALL_QUICKSORT <? pr - pl) eqn:Es; [|injection E as <- <- <- <- <-; auto].
    apply Nat.ltb_lt in Es.
    assert (Hv : pl <= pr < n) by (destruct Hs as [Hv _]; inversion Hv; auto).
    destruct (qs_partition (lessk key) a pl pr) as [b x] eqn:Ep.
    destruct (partition_spec key a pl pr) with (a' := b) (x := x)
      as [P1 [P2 [P3 [P4 [P5 P6]]]]]; [lia | lia | exact Ep |].
    destruct (split_segs n pl x pr (map sg st) P3 Hs) as [S1 [S2 S3]].
    assert (Hcut : forall p q, pl <= p < q -> q <= pr ->
      ~ (pl <= p /\ q <= x - 1) -> ~ (x + 1 <= p /\ q <= pr) ->
      (key (get b p) <= key (get b q))%R).
    { intros p q Hpq Hq N1 N2.
      destruct (Nat.lt_total p x) as [Hpx|[Hpx|Hpx]];
      destruct (Nat.lt_total q x) as [Hqx|[Hqx|Hqx]]; try lia.
      - subst q. apply P4; lia.
      - apply Rle_trans with (key (get b x)); [apply P4 | apply P5]; lia.
      - subst p. apply P5; lia. }
    destruct (x - pl <? pr - x).
    + edestruct (IH b pl (x - 1) (cd - 1)%Z ((x + 1, pr, (cd - 1)%Z) :: st))
        as [Q1 [Q2 [Q3 [Q4 Q5]]]]; [| exact S1 | | exact E |].
      * lia.
      * apply (step_ordered a b pl pr [(pl, x - 1); (x + 1, pr)] (map sg st));
          [lia | lia | exact P1 | exact P6 | exact S3 | exact Ho |].
        intros p q Hpq Hq Hns. apply Hcut; [lia | lia | |].
        -- intros Hc; apply (Hns (pl, x - 1)); [left; reflexivity | exact Hc].
        -- intros Hc; apply (Hns (x + 1, pr)); [right; left; reflexivity | exact Hc].
      * split; [exact Q1|]. split; [rewrite Q2; exact P1|]. split; [exact Q3|].
        split; [exact Q4|]. cbn [total map sg fst snd] in Q5 |- *. lia.
    + edestruct (IH b (x + 1) pr (cd - 1)%Z ((pl, x - 1, (cd - 1)%Z) :: st))
        as [Q1 [Q2 [Q3 [Q4 Q5]]]]; [| exact S2 | | exact E |].
      * lia.
      * apply (step_ordered a b pl pr [(x + 1, pr); (pl, x - 1)] (map sg st));
          [lia | lia | exact P1 | exact P6 | exact S3 | exact Ho |].
        intros p q Hpq Hq Hns. apply Hcut; [lia | lia | |].
        -- intros Hc; apply (Hns (pl, x - 1)); [right; left; reflexivity | exact Hc].
        -- intros Hc; apply (Hns (x + 1, pr)); [left; reflexivity | exact Hc].
      * split; [exact Q1|]. split; [rewrite Q2; exact P1|]. split; [exact Q3|].
        split; [exact Q4|]. cbn [total map sg fst snd] in Q5 |- *. lia.
Qed.

Lemma segs_ok_tail n s P : segs_ok n (s :: P) -> segs_ok n P.
Proof.
  intros [Hv Hd]. inversion Hv; inversion Hd; subst. split; assumption.
Qed.

Lemma segs_ok_head n s P : segs_ok n (s :: P) -> fst s <= snd s < n /\ Forall (sdisj s) P.
Proof.
  intros [Hv Hd]. inversion Hv; inversion Hd; subst. split; assumption.
Qed.

Lemma qs_loop_sorted n fuel : forall a pl pr cd st,
  length a = n -> segs_ok n ((pl, pr) :: map sg st) -> ordered a ((pl, pr) :: map sg st) ->
  total ((pl, pr) :: map sg st) <= fuel ->
  ordered (qs_loop (lessk key) fuel a pl pr cd st) [].
Proof.
  induction fuel as [|f IH]; intros a pl pr cd st Hl Hs Ho Ht.
  - destruct (segs_ok_head n _ _ Hs) as [Hv _]. cbn [total fst snd] in Ht, Hv. lia.
  - destruct (segs_ok_head n _ _ Hs) as [Hv Hd]. simpl in Hv.
    assert (Hcont : forall b st', length b = n -> segs_ok n (map sg st') ->
      ordered b (map sg st') -> total (map sg st') <= f ->
      ordered (match st' with
               | [] => b
               | (pl, pr, cdepth) :: stack => qs_loop (lessk key) f b pl pr cdepth stack
               end) []).
    { intros b [|[[l r] d] st''] Hb Hs' Ho' Ht'; [exact Ho'|].
      apply IH; assumption. }
    cbn [qs_loop].
    destruct (cd <? 0)%Z.
    + apply Hcont.
      * rewrite length_aheapsort; exact Hl.
      * exact (segs_ok_tail n _ _ Hs).
      * apply (step_ordered a _ pl pr [] (map sg st));
          [lia | apply length_aheapsort | apply aheapsort_perm; lia |
           intros p Hp; apply aheapsort_frame; lia | exact Hd | exact Ho |].
        intros p q Hpq Hq _. apply aheapsort_sorted; lia.
      * cbn [total fst snd] in Ht. lia.
    + destruct (qs_while (lessk key) (length a) a pl pr cd st) as [[[[b l] r] d] st'] eqn:E.
      destruct (qs_while_sorted n (length a) a pl pr cd st Hl Hs Ho _ _ _ _ _ E)
        as [Q1 [Q2 [Q3 [Q4 Q5]]]].
      destruct (segs_ok_head n _ _ Q3) as [Hv' Hd']. simpl in Hv'.
      destruct (insertion_sort_perm (lessk key) b l r ltac:(lia)) as [I1 I2].
      destruct (insertion_sort_spec key b l r ltac:(lia)) as [I3 I4].
      apply Hcont.
      * rewrite I2; exact Q1.
      * exact (segs_ok_tail n _ _ Q3).
      * apply (step_ordered b _ l r [] (map sg st'));
          [lia | exact I2 | exact I1 | exact I3 | exact Hd' | exact Q4 |].
        intros p q Hpq Hq _. apply I4; lia.
      * cbn [total fst snd] in Q5, Ht. lia.
Qed.

Lemma aquicksort_sorted_key n :
  Sorted (fun i j => (key i <= key j)%R) (aquicksort (lessk key) n).
Proof.
  destruct n as [|m]; [cbn; constructor|].
  assert (Hl : length (aquicksort (lessk key) (S m)) = S m)
    by (rewrite (Permutation_length (aquicksort_perm key (S m))); apply length_seq).
  assert (Ho : ordered (aquicksort (lessk key) (S m)) []).
  { unfold aquicksort. replace (S m - 1) with m by lia.
    apply (qs_loop_sorted (S m) (S (S m)) (seq 0 (S m)) 0 m _ []).
    - apply length_seq.
    - split; repeat constructor; simpl; lia.
    - intros p q Hpq Hns. exfalso. apply (Hns (0, m)); [left; reflexivity|].
      rewrite length_seq in Hpq. unfold inseg; simpl; lia.
    - simpl; lia. }
  apply (nth_sorted _ 0). intros i j Hij. apply Ho; [exact Hij|]. intros s [].
Qed.

End QsKeys.

Lemma argsort_perm (scores : list R) :
  Permutation (argsort scores) (seq 0 (length scores)).
Proof. exact (aquicksort_perm (fun k => nth k scores 0%R) (length scores)). Qed.

Lemma argsort_sorted (scores : list R) :
  length scores <= 17 -> Sorted (asc (fun k => nth k scores 0%R)) (argsort scores).
Proof. intros H; exact (aquicksort_sorted (fun k => nth k scores 0%R) (length scores) H). Qed.

Lemma argsort_sorted_key (scores : list R) :
  Sorted (fun i j => (nth i scores 0%R <= nth j scores 0%R)%R) (argsort scores).
Proof. exact (aquicksort_sorted_key (fun k => nth k scores 0%R) (length scores)). Qed.

Lemma argsort_zero_ties :
  argsort (repeat 0%R 18) = [0; 15; 14; 13; 12; 11; 10; 9; 8; 7; 6; 5; 4; 3; 2; 1; 16; 17].
Proof.
  unfold argsort.
  replace (fun i j => rlt (nth i (repeat 0%R 18) 0%R) (nth j (repeat 0%R 18) 0%R))
    with (fun _ _ : nat => false).
  - vm_compute. reflexivity.
  - apply functional_extensionality; intros i; apply functional_extensionality; intros j.
    rewrite !nth_repeat. symmetry; apply rlt_false, Rle_refl.
Qed.

Local Open Scope string_scope.
Local Open Scope list_scope.

Lemma slice_from_all {A} (l : list A) (top_n : Z) :
  (Z.of_nat (length l) <= top_n)%Z -> slice_from l (- top_n) = l.
Proof.
  intros H; unfold slice_from.
  replace (Z.to_nat _) with 0%nat; [reflexivity|].
  destruct (- top_n <? 0)%Z eqn:E; [apply Z.ltb_lt in E | apply Z.ltb_ge in E]; lia.
Qed.

Lemma in_slice_from {A} (l : list A) (start : Z) (x : A) :
  In x (slice_from l start) -> In x l.
Proof.
  unfold slice_from; intros H.
  set (k := Z.to_nat _) in H.
  rewrite <- (firstn_skipn k l); apply in_or_app; right; exact H.
Qed.

(** *** Shapes of the intermediate results *)

Lemma fit_transform_length (sw docs : list string) (m : list (list R)) :
  fit_transform sw docs = Ok m -> length m = length docs.
Proof.
  unfold fit_transform; destruct (vocabulary sw docs); intros H; [discriminate|].
  injection H as <-; now rewrite !length_map.
Qed.

Lemma scores_of_length (m : list (list R)) :
  length (scores_of m) = length m - 1.
Proof.
  unfold scores_of, cosine_similarity; rewrite length_map.
  destruct m as [|x m] using rev_ind; [reflexivity|].
  rewrite removelast_last, length_app; simpl; lia.
Qed.

(** A successful, non-degenerate call returns the roles at
    [top_indices_of] of the cosine scores of the resume row against the
    description rows. *)
Lemma rank_ok_shape (sw : list string) (r : string) (df : data_frame) (n : Z)
  (l : list string) :
  degenerate df = false ->
  match_resume_to_roles_with sw r df n = Ok l ->
  exists m, fit_transform sw (descriptions_of df ++ [r]) = Ok m /\
            length (scores_of m) = length (rows df) /\
            l = map (fun i => nth i (roles_of df) "") (top_indices_of (scores_of m) n).
Proof.
  intros Hd H; unfold match_resume_to_roles_with in H; rewrite Hd in H.
  destruct (fit_transform sw (descriptions_of df ++ [r])) as [m|e] eqn:E;
    [|discriminate].
  injection H as <-; exists m; split; [reflexivity|]; split; [|reflexivity].
  rewrite scores_of_length, (fit_transform_length _ _ _ E), length_app.
  unfold descriptions_of; rewrite length_map; simpl; lia.
Qed.

Lemma fit_transform_ok (sw docs : list string) :
  vocabulary sw docs <> [] ->
  fit_transform sw docs
  = Ok (map (fun d => l2_normalize (tfidf_row (vocabulary sw docs) (map (tokens sw) docs) d))
            (map (tokens sw) docs)).
Proof. unfold fit_transform; destruct (vocabulary sw docs); [contradiction | reflexivity]. Qed.

Lemma scores_of_twin (v w : list R) :
  scores_of [v; v; w] = [dot (l2_normalize w) (l2_normalize v); dot (l2_normalize w) (l2_normalize v)].
Proof. reflexivity. Qed.

Lemma top_indices_of_tie (c : R) :
  top_indices_of [c; c] 3 = [1; 0].
Proof.
  assert (E : argsort [c; c] = [0; 1]).
  { unfold argsort; simpl length.
    transitivity (fold_left (ins_list (lessk (fun k => nth k [c; c] 0%R))) (seq 0 2) []).
    - apply aquicksort_small; unfold SMALL_QUICKSORT; lia.
    - cbn; unfold lessk, rlt.
      destruct (Rlt_dec c c) as [H|H]; [exfalso; exact (Rlt_irrefl c H) | reflexivity]. }
  unfold top_indices_of; rewrite E; reflexivity.
Qed.

Lemma degenerate_fill (df : data_frame) : degenerate (fill_missing df) = degenerate df.
Proof. unfold degenerate, fill_missing; simpl; destruct (rows df); reflexivity. Qed.

Lemma descriptions_of_fill (df : data_frame) :
  descriptions_of (fill_missing df) = descriptions_of df.
Proof. unfold descriptions_of, fill_missing; simpl; rewrite map_map; reflexivity. Qed.

Lemma roles_of_fill (df : data_frame) : roles_of (fill_missing df) = roles_of df.
Proof. unfold roles_of, fill_missing; simpl; rewrite map_map; reflexivity. Qed.

(** The frames used below: two columns, as read from the workbook. *)
Definition two_columns : list string := ["job_title"; "job_description_text"].

Definition stop_word_df : data_frame :=
  mk_df two_columns [mk_row (Some "Engineer") (Some "the and of")].

Definition twin_df : data_frame :=
  mk_df two_columns [mk_row (Some "A") (Some "python"); mk_row (Some "B") (Some "python")].

(** C1: an empty resume against a one-row frame whose description is
    made only of stop words does not give a ranking: [fit_transform]
    raises [ValueError] (empty vocabulary), and [match_resume_to_roles]
    lets the exception through. *)
Theorem rank_stop_words_raise :
  match_resume_to_roles "" stop_word_df 3 = Raise (ValueError empty_vocabulary_msg).
Proof. vm_compute. reflexivity. Qed.

(** C3 (counterexample): two roles with the same description get equal
    scores, and the later one ([B]) is returned first. *)
Lemma rank_tie_reversed :
  match_resume_to_roles "python" twin_df 3 = Ok ["B"; "A"].
Proof.
  unfold match_resume_to_roles, match_resume_to_roles_with.
  change (degenerate twin_df) with false.
  change (descriptions_of twin_df ++ ["python"]) with ["python"; "python"; "python"].
  rewrite fit_transform_ok by (vm_compute; discriminate).
  cbn [map]; rewrite scores_of_twin, top_indices_of_tie; reflexivity.
Qed.

(** C3 (amended): for a frame with both columns and at least one row,
    and [top_n] at least the number of rows, the call either raises the
    [fit_transform] exception or returns the roles of all rows, each row
    once, in non-increasing order of score. Rows with equal scores are
    not kept in row order: with at most 17 rows they come in reverse row
    order (later rows first); with more rows the quicksort partitioning
    of numpy fixes no order among them (see [argsort_zero_ties]). *)
Theorem rank_full_ranking (r : string) (df : data_frame) (top_n : Z) :
  degenerate df = false ->
  (Z.of_nat (length (rows df)) <= top_n)%Z ->
  match match_resume_to_roles r df top_n with
  | Raise e => fit_transform english_stop_words (descriptions_of df ++ [r]) = Raise e
  | Ok l =>
      exists m idx,
        fit_transform english_stop_words (descriptions_of df ++ [r]) = Ok m /\
        Permutation idx (seq 0 (length (rows df))) /\
        Sorted (fun i j => (nth j (scores_of m) 0 <= nth i (scores_of m) 0)%R) idx /\
        (length (rows df) <= 17 ->
         Sorted (fun i j => (nth j (scores_of m) 0 < nth i (scores_of m) 0)%R \/
                            (nth j (scores_of m) 0%R = nth i (scores_of m) 0%R /\ j < i)) idx) /\
        l = map (fun i => nth i (roles_of df) "") idx
  end.
Proof.
  intros Hd Hn.
  destruct (match_resume_to_roles r df top_n) as [l|e] eqn:E.
  - destruct (rank_ok_shape _ _ _ _ _ Hd E) as [m [Hfit [Hlen Hl]]].
    pose proof (argsort_perm (scores_of m)) as Hp.
    exists m, (rev (argsort (scores_of m))).
    split; [exact Hfit|].
    split; [rewrite <- Permutation_rev, Hp, Hlen; reflexivity|].
    split; [apply (sorted_rev (fun i j => (nth i (scores_of m) 0 <= nth j (scores_of m) 0)%R));
            apply argsort_sorted_key|].
    split; [intros Hs; apply sorted_rev, argsort_sorted; rewrite Hlen; exact Hs|].
    rewrite Hl; unfold top_indices_of; rewrite slice_from_all; [reflexivity|].
    rewrite (Permutation_length Hp), length_seq, Hlen; exact Hn.
  - unfold match_resume_to_roles, match_resume_to_roles_with in E; rewrite Hd in E.
    destruct (fit_transform english_stop_words (descriptions_of df ++ [r]));
      [discriminate | congruence].
Qed.

Lemma rank_full_ranking_witness :
  degenerate twin_df = false /\
  (Z.of_nat (length (rows twin_df)) <= 3)%Z /\
  match match_resume_to_roles "python" twin_df 3 with
  | Raise e => fit_transform english_stop_words (descriptions_of twin_df ++ ["python"]) = Raise e
  | Ok l =>
      exists m idx,
        fit_transform english_stop_words (descriptions_of twin_df ++ ["python"]) = Ok m /\
        Permutation idx (seq 0 (length (rows twin_df))) /\
        Sorted (fun i j => (nth j (scores_of m) 0 <= nth i (scores_of m) 0)%R) idx /\
        (length (rows twin_df) <= 17 ->
         Sorted (fun i j => (nth j (scores_of m) 0 < nth i (scores_of m) 0)%R \/
                            (nth j (scores_of m) 0%R = nth i (scores_of m) 0%R /\ j < i)) idx) /\
        l = map (fun i => nth i (roles_of twin_df) "") idx
  end.
Proof.
  assert (Hd : degenerate twin_df = false) by reflexivity.
  assert (Hn : (Z.of_nat (length (rows twin_df)) <= 3)%Z) by (simpl; lia).
  split; [exact Hd | split; [exact Hn | exact (rank_full_ranking "python" twin_df 3 Hd Hn)]].
Defined.

(** C10: missing cells are handled by the two [fillna] calls: the call
    behaves exactly as on the frame with a missing description replaced
    by the empty string and a missing title by [Unknown Role]; and every
    returned role is the title of some row, [Unknown Role] for a row
    whose title is missing. *)
Theorem rank_fills_missing (r : string) (df : data_frame) (top_n : Z) :
  match_resume_to_roles r df top_n = match_resume_to_roles r (fill_missing df) top_n /\
  match match_resume_to_roles r df top_n with
  | Ok l => Forall (fun x => exists i rw, nth_error (rows df) i = Some rw /\
                       x = match job_title rw with Some t => t | None => "Unknown Role" end) l
  | Raise _ => True
  end.
Proof.
  split.
  - unfold match_resume_to_roles, match_resume_to_roles_with.
    rewrite degenerate_fill, descriptions_of_fill, roles_of_fill; reflexivity.
  - destruct (match_resume_to_roles r df top_n) as [l|e] eqn:E; [|exact I].
    destruct (degenerate df) eqn:Hd.
    + unfold match_resume_to_roles, match_resume_to_roles_with in E; rewrite Hd in E.
      injection E as <-; constructor.
    + destruct (rank_ok_shape _ _ _ _ _ Hd E) as [m [_ [Hlen Hl]]]; subst l.
      apply Forall_forall; intros x Hx; apply in_map_iff in Hx.
      destruct Hx as [i [<- Hi]].
      unfold top_indices_of in Hi; apply in_rev, in_slice_from in Hi.
      apply (Permutation_in _ (argsort_perm _)), in_seq in Hi.
      rewrite Hlen in Hi.
      destruct (nth_error (rows df) i) as [rw|] eqn:Erw;
        [|apply nth_error_None in Erw; lia].
      exists i, rw; split; [exact Erw|].
      unfold roles_of; rewrite (nth_error_nth _ _ _ (map_nth_error _ _ _ Erw)).
      reflexivity.
Qed.

End RankSpec.

(* ================================================================== *)
(** * More properties of [extract_resume_details] *)

Module ExtractMore.
Import Extract.
Import ExtractSpec.

(** [l1] is obtained from [l2] by dropping elements (order kept). *)
Inductive sublist {A} : list A -> list A -> Prop :=
| sublist_nil : sublist [] []
| sublist_skip x l1 l2 : sublist l1 l2 -> sublist l1 (x :: l2)
| sublist_keep x l1 l2 : sublist l1 l2 -> sublist (x :: l1) (x :: l2).

(** A body line: the stripped form of an input line that is not a header. *)
Definition body_line (lines : list string) (l : string) : Prop :=
  exists raw, In raw lines /\ l = Py.strip raw /\ find_section l summary_sections = None.

Definition bodies_ok (lines : list string) (info : list (string * list string)) : Prop :=
  Forall (fun kv => Forall (body_line lines) (snd kv)) info.

Lemma append_to_bodies (lines : list string) (key line : string)
  (info : list (string * list string)) :
  bodies_ok lines info -> body_line lines line -> bodies_ok lines (append_to key line info).
Proof.
  intros H Hl; induction H as [|[k v] rest Hv Hrest IH]; simpl; [constructor|].
  destruct (String.eqb k key); constructor; [|exact Hrest| exact Hv | exact IH].
  simpl; apply Forall_app; split; [exact Hv | constructor; [exact Hl | constructor]].
Qed.

Lemma fold_bodies (lines todo : list string) st :
  incl todo lines -> bodies_ok lines (fst st) ->
  bodies_ok lines (fst (fold_left step todo st)).
Proof.
  revert st; induction todo as [|raw rest IH]; intros [info cur] Hincl Hst; [exact Hst|].
  cbn [fold_left]; apply IH; [intros x Hx; apply Hincl; now right|].
  unfold step; simpl in Hst.
  destruct (find_section (Py.strip raw) summary_sections) eqn:E; [exact Hst|].
  destruct cur; simpl; [|exact Hst].
  apply append_to_bodies; [exact Hst|].
  exists raw; split; [apply Hincl; now left | split; [reflexivity | exact E]].
Qed.

Lemma sublist_filter_keys (p : string * list string -> bool)
  (info : list (string * list string)) :
  sublist (map fst (filter p info)) (map fst info).
Proof.
  induction info as [|[k v] rest IH]; simpl; [constructor|].
  destruct (p (k, v)); simpl; constructor; exact IH.
Qed.

Lemma sublist_incl {A} (l1 l2 : list A) : sublist l1 l2 -> incl l1 l2.
Proof.
  induction 1 as [|x l1 l2 _ IH|x l1 l2 _ IH]; intros y Hy; [exact Hy | right; now apply IH|].
  destruct Hy as [<-|Hy]; [now left | right; now apply IH].
Qed.

Lemma sublist_nodup {A} (l1 l2 : list A) : sublist l1 l2 -> NoDup l2 -> NoDup l1.
Proof.
  induction 1 as [|x l1 l2 _ IH|x l1 l2 Hs IH]; intros Hn; [constructor| |];
    inversion Hn as [|? ? Hx Hn']; subst; [now apply IH|].
  constructor; [intros Hin; apply Hx; now apply (sublist_incl _ _ Hs) | now apply IH].
Qed.

Lemma split_app_sep (c : ascii) (a b : string) :
  Py.split c (a ++ String c b) = Py.split c a ++ Py.split c b.
Proof.
  induction a as [|x a IH]; simpl.
  - now rewrite Ascii.eqb_refl.
  - destruct (Ascii.eqb x c); [now rewrite IH|].
    rewrite IH; destruct a as [|y a'].
    + simpl; reflexivity.
    + destruct (Py.split c (String y a')) as [|w ws] eqn:E; [|reflexivity].
      exfalso; simpl in E; destruct (Ascii.eqb y c); [discriminate|].
      destruct (Py.split c a'); discriminate.
Qed.

(** X1: each value of a non-sentinel result is the newline join of a
    non-empty list of lines, each of which is an input line stripped of
    surrounding whitespace and is not a header line: header lines,
    including any text after the header phrase, are never recorded. *)
Theorem extract_values_are_body_lines (text : string) :
  match extract_resume_details text with
  | Sections m =>
      Forall (fun kv => exists ls, ls <> [] /\ snd kv = Py.join Py.nl ls /\
                                   Forall (body_line (Py.split Py.newline text)) ls) m
  | Sentinel _ => True
  end.
Proof.
  unfold extract_resume_details.
  pose proof (fold_bodies (Py.split Py.newline text) (Py.split Py.newline text)
                (init_info, None) (incl_refl _)) as Hb.
  destruct (fold_left step (Py.split Py.newline text) (init_info, None)) as [info cur].
  simpl in Hb.
  assert (Hinfo : bodies_ok (Py.split Py.newline text) info).
  { apply Hb; unfold bodies_ok, init_info; simpl; repeat constructor. }
  assert (Hf : Forall (fun kv => exists ls, ls <> [] /\ snd kv = Py.join Py.nl ls /\
                                   Forall (body_line (Py.split Py.newline text)) ls)
                      (format info)).
  { apply Forall_forall; intros x Hx; unfold format in Hx.
    apply in_map_iff in Hx; destruct Hx as [kv [<- Hin]].
    apply filter_In in Hin; destruct Hin as [Hin Hne].
    exists (snd kv); split; [destruct (snd kv); [discriminate | congruence]|].
    split; [reflexivity|].
    unfold bodies_ok in Hinfo; rewrite Forall_forall in Hinfo; exact (Hinfo kv Hin). }
  destruct (format info); [exact I | exact Hf].
Qed.

(** X2: the keys of a non-sentinel result have no duplicates and come in
    the order Skills, Achievements, Experience, Projects, whatever the
    order of the headers in the text. *)
Theorem extract_keys_ordered (text : string) :
  match extract_resume_details text with
  | Sections m =>
      sublist (map fst m) ["Skills"; "Achievements"; "Experience"; "Projects"]%string /\
      NoDup (map fst m)
  | Sentinel _ => True
  end.
Proof.
  unfold extract_resume_details.
  pose proof (fold_step_keys (Py.split Py.newline text) (init_info, None)) as Hk.
  destruct (fold_left step (Py.split Py.newline text) (init_info, None)) as [info cur].
  cbn [fst] in Hk.
  assert (Hs : sublist (map fst (format info))
                 ["Skills"; "Achievements"; "Experience"; "Projects"]%string).
  { unfold format; rewrite map_map; simpl.
    change ["Skills"; "Achievements"; "Experience"; "Projects"]%string with (map fst init_info).
    rewrite <- Hk; apply sublist_filter_keys. }
  assert (Hn : NoDup (map fst (format info))).
  { apply (sublist_nodup _ _ Hs).
    repeat constructor; simpl; intuition discriminate. }
  destruct (format info); [exact I | split; assumption].
Qed.

(** X3: lines before the first header are ignored: when no line of
    [pre] is a header, prefixing [pre] and a newline to a text does not
    change the result. *)
Theorem extract_ignores_preamble (pre rest : string) :
  Forall (fun raw => Forall (fun sk => matches (Py.strip raw) (snd sk) = false)
                            summary_sections) (Py.split Py.newline pre) ->
  extract_resume_details (pre ++ Py.nl ++ rest)%string = extract_resume_details rest.
Proof.
  intros H; unfold extract_resume_details.
  change (Py.nl ++ rest)%string with (String Py.newline rest).
  rewrite split_app_sep, fold_left_app, (fold_no_header _ H); reflexivity.
Qed.

Lemma extract_ignores_preamble_witness :
  Forall (fun raw => Forall (fun sk => matches (Py.strip raw) (snd sk) = false)
                            summary_sections)
         (Py.split Py.newline ("Jane Doe" ++ Py.nl ++ "jane@mail.com")%string) /\
  extract_resume_details ("Jane Doe" ++ Py.nl ++ "jane@mail.com" ++ Py.nl ++
                          "Skills" ++ Py.nl ++ "Rocq")%string
  = extract_resume_details ("Skills" ++ Py.nl ++ "Rocq")%string.
Proof.
  assert (H : Forall (fun raw => Forall (fun sk => matches (Py.strip raw) (snd sk) = false)
                            summary_sections)
         (Py.split Py.newline ("Jane Doe" ++ Py.nl ++ "jane@mail.com")%string))
    by (vm_compute; repeat constructor).
  split; [exact H|].
  rewrite <- (extract_ignores_preamble _ _ H).
  reflexivity.
Defined.

End ExtractMore.

(* ================================================================== *)
(** * More properties of [match_resume_to_roles] *)

Module RankMore.
Import Rank.
Import RankSpec.
Local Open Scope string_scope.
Local Open Scope list_scope.

Lemma asc_trans (key : nat -> R) (i j k : nat) :
  asc key i j -> asc key j k -> asc key i k.
Proof. unfold asc; intros [H1|[H1 H1']] [H2|[H2 H2']]; [left; lra | left; lra | left; lra | right; split; [lra | lia]]. Qed.



Lemma nodup_skipn {A} (k : nat) (l : list A) : NoDup l -> NoDup (skipn k l).
Proof.
  intros H; rewrite <- (firstn_skipn k l) in H.
  now apply NoDup_app_remove_l in H.
Qed.

(** What a successful call returns, for any [top_n]: the roles of a
    duplicate-free list of rows; [top_n > 0] rows (at most all), or, for
    [top_n <= 0], all rows but [- top_n]. *)
Lemma rank_ok_indices (sw : list string) (r : string) (df : data_frame) (top_n : Z)
  (l : list string) :
  degenerate df = false ->
  match_resume_to_roles_with sw r df top_n = Ok l ->
  exists m idx,
    fit_transform sw (descriptions_of df ++ [r]) = Ok m /\
    l = map (fun i => nth i (roles_of df) "") idx /\
    NoDup idx /\
    (forall i, In i idx -> i < length (rows df)) /\
    ((0 < top_n)%Z -> length idx = Nat.min (Z.to_nat top_n) (length (rows df))) /\
    ((top_n <= 0)%Z -> length idx = length (rows df) - Z.to_nat (- top_n)).
Proof.
  intros Hd H.
  destruct (rank_ok_shape _ _ _ _ _ Hd H) as [m [Hfit [Hlen Hl]]].
  set (sc := scores_of m) in *.
  set (a := argsort sc).
  pose proof (argsort_perm sc) as Hp; fold a in Hp.
  assert (Hnd : NoDup a)
    by (apply (Permutation_NoDup (Permutation_sym Hp)), seq_NoDup).
  assert (Hla : length a = length (rows df))
    by (rewrite (Permutation_length Hp), length_seq; exact Hlen).
  set (k := Z.to_nat (if (- top_n <? 0)%Z
                      then Z.max 0 (Z.of_nat (length a) + - top_n)
                      else Z.min (- top_n) (Z.of_nat (length a)))).
  assert (Hsl : slice_from a (- top_n) = skipn k a) by reflexivity.
  exists m, (rev (skipn k a)).
  split; [exact Hfit|].
  split; [rewrite Hl; unfold top_indices_of; fold sc a; now rewrite Hsl|].
  split; [apply NoDup_rev, nodup_skipn, Hnd|].
  split.
  { intros i Hi; apply in_rev in Hi.
    assert (Ha : In i a) by (rewrite <- (firstn_skipn k a); apply in_or_app; now right).
    apply (Permutation_in _ Hp), in_seq in Ha; lia. }
  rewrite length_rev, length_skipn, Hla in *.
  unfold k; rewrite Hla.
  split; intros Hn; destruct (- top_n <? 0)%Z eqn:E;
    [apply Z.ltb_lt in E | apply Z.ltb_ge in E | apply Z.ltb_lt in E | apply Z.ltb_ge in E];
    lia.
Qed.




(** *** Scores are never negative *)

Lemma filter_length_le {A} (f : A -> bool) (l : list A) : length (filter f l) <= length l.
Proof. induction l as [|x l IH]; simpl; [lia|]; destruct (f x); simpl; lia. Qed.

Lemma idf_nonneg (n dft : nat) : dft <= n -> (0 <= idf n dft)%R.
Proof.
  intros H; unfold idf.
  assert (Hpos : (0 < INR (1 + dft))%R) by (apply lt_0_INR; lia).
  assert (Hle : (INR (1 + dft) <= INR (1 + n))%R) by (apply le_INR; lia).
  assert (H1 : (1 <= INR (1 + n) / INR (1 + dft))%R).
  { unfold Rdiv; rewrite <- (Rinv_r (INR (1 + dft))) by lra.
    apply Rmult_le_compat_r; [apply Rlt_le, Rinv_0_lt_compat; exact Hpos | exact Hle]. }
  assert (Hln : (0 <= ln (INR (1 + n) / INR (1 + dft)))%R).
  { rewrite <- ln_1; destruct (Rle_lt_or_eq_dec _ _ H1) as [Hlt|Heq].
    - apply Rlt_le, ln_increasing; lra.
    - rewrite Heq; apply Rle_refl. }
  lra.
Qed.

Lemma dot_nonneg (u v : list R) :
  Forall (fun x => 0 <= x)%R u -> Forall (fun x => 0 <= x)%R v -> (0 <= dot u v)%R.
Proof.
  intros Hu; revert v; unfold dot.
  induction Hu as [|x u Hx _ IH]; intros [|y v] Hv; simpl; try lra.
  inversion Hv as [|? ? Hy Hv']; subst.
  specialize (IH v Hv'); apply Rplus_le_le_0_compat; [apply Rmult_le_pos|]; assumption.
Qed.

Lemma l2_normalize_nonneg (v : list R) :
  Forall (fun x => 0 <= x)%R v -> Forall (fun x => 0 <= x)%R (l2_normalize v).
Proof.
  intros Hv; unfold l2_normalize.
  destruct (Req_dec_T (sqrt (dot v v)) 0) as [_|Hn]; [exact Hv|].
  assert (Hp : (0 < sqrt (dot v v))%R)
    by (pose proof (sqrt_pos (dot v v)); lra).
  apply Forall_map; eapply Forall_impl; [|exact Hv]; intros x Hx; cbv beta.
  unfold Rdiv; apply Rmult_le_pos; [exact Hx | apply Rlt_le, Rinv_0_lt_compat, Hp].
Qed.

Lemma tfidf_row_nonneg (vocab : list string) (dts : list (list string)) (d : list string) :
  Forall (fun x => 0 <= x)%R (tfidf_row vocab dts d).
Proof.
  unfold tfidf_row; apply Forall_forall; intros x Hx.
  apply in_map_iff in Hx; destruct Hx as [t [<- _]].
  apply Rmult_le_pos; [apply pos_INR | apply idf_nonneg, filter_length_le].
Qed.

Lemma forall_last {A} (P : A -> Prop) (m : list A) (d : A) :
  Forall P m -> P d -> P (last m d).
Proof. induction 1 as [|x m Hx Hm IH]; intros Hd; [exact Hd|]; destruct m; simpl; auto. Qed.

Lemma forall_removelast {A} (P : A -> Prop) (m : list A) :
  Forall P m -> Forall P (removelast m).
Proof.
  induction 1 as [|x m Hx Hm IH]; simpl; [constructor|].
  destruct m; [constructor | constructor; assumption].
Qed.

(** X5: every cosine similarity score computed from a TF-IDF matrix is
    non-negative (term counts and smoothed idf weights are never
    negative, and normalisation divides by a positive norm). *)
Theorem scores_nonneg (sw docs : list string) :
  match fit_transform sw docs with
  | Ok m => Forall (fun x => 0 <= x)%R (scores_of m)
  | Raise _ => True
  end.
Proof.
  destruct (fit_transform sw docs) as [m|e] eqn:E; [|exact I].
  assert (Hm : Forall (Forall (fun x => 0 <= x)%R) m).
  { unfold fit_transform in E; destruct (vocabulary sw docs); [discriminate|].
    injection E as <-; apply Forall_forall; intros row Hrow.
    apply in_map_iff in Hrow; destruct Hrow as [d [<- _]].
    apply l2_normalize_nonneg; exact (tfidf_row_nonneg (_ :: _) _ _). }
  unfold scores_of, cosine_similarity; apply Forall_map.
  apply (Forall_impl _ (fun y Hy => dot_nonneg _ _
           (l2_normalize_nonneg _ (forall_last _ _ [] Hm (Forall_nil _)))
           (l2_normalize_nonneg _ Hy))).
  apply forall_removelast, Hm.
Qed.

End RankMore.

(* ================================================================== *)
(** * More properties of the interview session *)

Module SessionMore.
Import Session.
Import SessionSpec.
Local Open Scope string_scope.
Local Open Scope list_scope.

Definition is_interviewer (e : speaker * string) : bool :=
  match fst e with Interviewer => true | Candidate => false end.

(** The questions and the answers of a log, in order. *)
Definition questions_of (log : list (speaker * string)) : list string :=
  map snd (filter is_interviewer log).

Definition answers_of (log : list (speaker * string)) : list string :=
  map snd (filter (fun e => negb (is_interviewer e)) log).

Definition accepted (a : string) : bool := Py.truthy (Py.strip a).

Lemma submit_keeps_questions (s : state) (a : string) :
  questions_of (conversation (submit_answer s a)) ++ transcripts (submit_answer s a)
  = questions_of (conversation s) ++ transcripts s.
Proof.
  unfold submit_answer.
  destruct (pending s); [|reflexivity].
  destruct (Py.truthy (Py.strip a)); [|reflexivity].
  unfold questions_of; destruct (transcripts s) as [|q rest]; simpl;
    rewrite !filter_app, !map_app; simpl; rewrite ?app_nil_r, <- ?app_assoc; reflexivity.
Qed.

Lemma submits_keep_questions (s : state) (answers : list string) :
  questions_of (conversation (run s (map Submit answers))) ++ transcripts (run s (map Submit answers))
  = questions_of (conversation s) ++ transcripts s.
Proof.
  revert s; induction answers as [|a answers IH]; intros s; [reflexivity|].
  cbn [map]; rewrite run_cons; cbn [exec]; rewrite IH; apply submit_keeps_questions.
Qed.

Lemma submits_not_pending (s : state) (answers : list string) :
  pending s = false -> run s (map Submit answers) = s.
Proof.
  intros H; revert s H; induction answers as [|a answers IH]; intros s H; [reflexivity|].
  cbn [map]; rewrite run_cons; cbn [exec].
  assert (E : submit_answer s a = s) by (unfold submit_answer; now rewrite H).
  rewrite E; apply IH, H.
Qed.

Lemma submits_answers (answers : list string) :
  forall s, pending s = true -> Forall (fun q => Py.truthy q = true) (transcripts s) ->
  let s' := run s (map Submit answers) in
  answers_of (conversation s')
  = answers_of (conversation s) ++
    firstn (S (length (transcripts s))) (filter accepted answers) /\
  (current_question s' = None <-> S (length (transcripts s)) <= length (filter accepted answers)).
Proof.
  induction answers as [|a answers IH]; intros s Hp Ht s'; subst s'.
  - simpl; rewrite app_nil_r; split; [reflexivity|].
    unfold pending in Hp; destruct (current_question s); [|discriminate].
    split; [discriminate | intros; lia].
  - cbn [map filter]; rewrite run_cons; cbn [exec].
    destruct (accepted a) eqn:Ea; unfold accepted in Ea.
    + destruct (transcripts s) as [|q rest] eqn:Et.
      * assert (E : submit_answer s a
                    = mk_state (conversation s ++ [(Candidate, a)]) (role s) None [])
          by (unfold submit_answer; now rewrite Hp, Ea, Et).
        rewrite E, submits_not_pending by reflexivity; simpl.
        unfold answers_of; rewrite filter_app, map_app; simpl.
        split; [reflexivity | split; [intros; lia | reflexivity]].
      * inversion Ht as [|? ? Hq Hrest]; subst.
        assert (E : submit_answer s a
                    = mk_state (conversation s ++ [(Candidate, a)] ++ [(Interviewer, q)])
                               (role s) (Some q) rest)
          by (unfold submit_answer; rewrite Hp, Ea, Et; simpl; now rewrite <- app_assoc).
        rewrite E.
        destruct (IH (mk_state (conversation s ++ [(Candidate, a)] ++ [(Interviewer, q)])
                               (role s) (Some q) rest)) as [IHa IHc];
          [exact Hq | exact Hrest|].
        split.
        -- rewrite IHa; cbn [conversation transcripts]; unfold answers_of.
           rewrite !filter_app, !map_app; simpl.
           rewrite <- app_assoc; reflexivity.
        -- rewrite IHc; simpl; lia.
    + assert (E : submit_answer s a = s)
        by (unfold submit_answer; now rewrite Hp, Ea).
      rewrite E; apply IH; assumption.
Qed.

(** X6: after a start with a non-empty role and any answers (blank or
    not, before or after the end), the questions asked so far followed by
    the questions still queued are exactly the start's question list:
    questions are asked in order, none skipped, repeated or invented. *)
Theorem questions_asked_in_order (s : state) (r : string) (qs answers : list string) :
  Py.truthy r = true ->
  let s' := run s (Start r qs :: map Submit answers) in
  questions_of (conversation s') ++ transcripts s' = qs.
Proof.
  intros Hr s'; unfold s'; rewrite run_cons; cbn [exec].
  rewrite submits_keep_questions; unfold start; rewrite Hr.
  destruct qs; reflexivity.
Qed.

Lemma questions_asked_in_order_witness :
  Py.truthy "Engineer" = true /\
  questions_of (conversation (run init (Start "Engineer" ["Q1"; "Q2"; "Q3"] ::
                                         map Submit ["A1"; " "; "A2"]))) ++
  transcripts (run init (Start "Engineer" ["Q1"; "Q2"; "Q3"] :: map Submit ["A1"; " "; "A2"]))
  = ["Q1"; "Q2"; "Q3"].
Proof.
  split; [reflexivity | exact (questions_asked_in_order init "Engineer" _ _ eq_refl)].
Defined.

(** X7: after a start with a non-empty role and a non-empty list of
    non-empty questions, the answers recorded in the log are the first
    [length qs] answers that are not blank, in order: blank answers are
    dropped without using up a question, and answers after the last
    question are ignored. The interview has ended (no current question)
    exactly when at least [length qs] answers were not blank. *)
Theorem answers_recorded (s : state) (r : string) (qs answers : list string) :
  Py.truthy r = true ->
  qs <> [] ->
  Forall (fun q => Py.truthy q = true) qs ->
  let s' := run s (Start r qs :: map Submit answers) in
  answers_of (conversation s') = firstn (length qs) (filter accepted answers) /\
  (current_question s' = None <-> length qs <= length (filter accepted answers)).
Proof.
  intros Hr Hne Hq s'; unfold s'; rewrite run_cons; cbn [exec].
  unfold start; rewrite Hr.
  destruct qs as [|q rest]; [contradiction|].
  inversion Hq as [|? ? Hq1 Hrest]; subst.
  destruct (submits_answers answers (mk_state [(Interviewer, q)] (Some r) (Some q) rest))
    as [Ha Hc]; [exact Hq1 | exact Hrest|].
  split; [exact Ha | exact Hc].
Qed.

Lemma answers_recorded_witness :
  Py.truthy "Engineer" = true /\
  ["Q1"; "Q2"] <> [] /\
  Forall (fun q => Py.truthy q = true) ["Q1"; "Q2"] /\
  answers_of (conversation (run init (Start "Engineer" ["Q1"; "Q2"] ::
                                      map Submit [" "; "A1"; "A2"; "A3"])))
  = firstn 2 (filter accepted [" "; "A1"; "A2"; "A3"]) /\
  (current_question (run init (Start "Engineer" ["Q1"; "Q2"] ::
                               map Submit [" "; "A1"; "A2"; "A3"])) = None <->
   2 <= length (filter accepted [" "; "A1"; "A2"; "A3"])).
Proof.
  assert (H1 : Py.truthy "Engineer" = true) by reflexivity.
  assert (H2 : ["Q1"; "Q2"] <> []) by discriminate.
  assert (H3 : Forall (fun q => Py.truthy q = true) ["Q1"; "Q2"]) by repeat constructor.
  split; [exact H1 | split; [exact H2 | split; [exact H3 |]]].
  exact (answers_recorded init "Engineer" ["Q1"; "Q2"] [" "; "A1"; "A2"; "A3"] H1 H2 H3).
Defined.

End SessionMore.

(* ================================================================== *)
(** * Properties of the rest of the application *)

Module AppSpec.
Import App.
Local Open Scope string_scope.
Local Open Scope list_scope.

(** *** Upload *)

Lemma extract_empty : Extract.extract_resume_details "" = Extract.Sentinel Extract.sentinel_msg.
Proof. reflexivity. Qed.

Lemma pdf_text_empty (reader : option (list (option string))) :
  Forall (fun p => match p with Some t => Py.truthy t = false | None => True end)
         (match reader with Some ps => ps | None => [] end) ->
  extract_pdf_text reader = "".
Proof.
  destruct reader as [pages|]; [|reflexivity]; intros H; unfold extract_pdf_text.
  replace (flat_map _ pages) with (@nil string); [reflexivity|].
  induction H as [|[t|] ps Ht _ IH]; simpl; [reflexivity | rewrite Ht; exact IH | exact IH].
Qed.

(** X8: uploading a [.pdf] file that cannot be read, or none of whose
    pages yields text, or a [.docx] file that cannot be read, stores the
    no-data sentinel as the resume summary (the reader's error is
    reported and answered with an empty text). *)
Theorem upload_unreadable_sentinel (resume_summary : option Extract.result) (u : uploaded) :
  (endswith (name u) ".pdf" = true /\
   Forall (fun p => match p with Some t => Py.truthy t = false | None => True end)
          (match pdf_pages u with Some ps => ps | None => [] end)) \/
  (endswith (name u) ".pdf" = false /\ endswith (name u) ".docx" = true /\
   docx_paragraphs u = None) ->
  upload_data resume_summary (Some u) = Some (Extract.Sentinel Extract.sentinel_msg).
Proof.
  intros [[Hp Hpages] | [Hp [Hd Hn]]]; unfold upload_data.
  - rewrite Hp, (pdf_text_empty _ Hpages); reflexivity.
  - rewrite Hp, Hd, Hn; reflexivity.
Qed.

Lemma upload_unreadable_sentinel_witness :
  ((endswith "cv.pdf" ".pdf" = true /\
    Forall (fun p => match p with Some t => Py.truthy t = false | None => True end)
           [Some ""; None]) \/
   (endswith "cv.pdf" ".pdf" = false /\ endswith "cv.pdf" ".docx" = true /\
    @None (list string) = None)) /\
  upload_data None (Some (mk_uploaded "cv.pdf" (Some [Some ""; None]) None))
  = Some (Extract.Sentinel Extract.sentinel_msg).
Proof.
  assert (H : (endswith "cv.pdf" ".pdf" = true /\
    Forall (fun p => match p with Some t => Py.truthy t = false | None => True end)
           [Some ""; None]) \/
   (endswith "cv.pdf" ".pdf" = false /\ endswith "cv.pdf" ".docx" = true /\
    @None (list string) = None))
    by (left; split; [reflexivity | repeat constructor]).
  split; [exact H|].
  exact (upload_unreadable_sentinel None (mk_uploaded "cv.pdf" (Some [Some ""; None]) None) H).
Defined.

(** *** Database and role list *)

Lemma role_options_empty_database (resume_summary : option Extract.result) :
  role_options resume_summary empty_database = Done [].
Proof.
  destruct resume_summary as [s|]; [|reflexivity].
  unfold role_options; destruct (summary_truthy s); reflexivity.
Qed.

(** X9: when the workbook cannot be opened, or lacks the sheet that
    [sheet_map] names for the experience level, [database] is the empty
    frame and the role select box has no option, whatever resume was
    uploaded. *)
Theorem no_roles_without_sheet (workbook : option (list (string * Rank.data_frame)))
  (experience_level sheet : string) (resume_summary : option Extract.result) :
  lookup experience_level sheet_map = Some sheet ->
  (workbook = None \/
   exists sheets, workbook = Some sheets /\ lookup sheet sheets = None) ->
  role_options resume_summary (load_database workbook experience_level) = Done [].
Proof.
  intros Hs Hw.
  assert (E : load_database workbook experience_level = empty_database).
  { destruct Hw as [->|[sheets [-> Hl]]]; [reflexivity|].
    unfold load_database; destruct (map fst sheets); [reflexivity|].
    now rewrite Hs, Hl. }
  rewrite E; apply role_options_empty_database.
Qed.

Lemma no_roles_without_sheet_witness :
  lookup "Director" sheet_map = Some "Senior_Level" /\
  (Some [("Fresher_Level", empty_database)] = None \/
   exists sheets, Some [("Fresher_Level", empty_database)] = Some sheets /\
                  lookup "Senior_Level" sheets = None) /\
  role_options None (load_database (Some [("Fresher_Level", empty_database)]) "Director")
  = Done [].
Proof.
  assert (H1 : lookup "Director" sheet_map = Some "Senior_Level") by reflexivity.
  assert (H2 : Some [("Fresher_Level", empty_database)] = None \/
               exists sheets, Some [("Fresher_Level", empty_database)] = Some sheets /\
                              lookup "Senior_Level" sheets = None)
    by (right; eexists; split; reflexivity).
  split; [exact H1 | split; [exact H2 | exact (no_roles_without_sheet _ _ _ None H1 H2)]].
Defined.

Lemma unique_from_in (l seen : list string) (x : string) :
  In x (unique_from seen l) <-> In x l /\ ~ In x seen.
Proof.
  revert seen; induction l as [|y l IH]; intros seen; simpl; [tauto|].
  destruct (existsb (String.eqb y) seen) eqn:E.
  - apply existsb_exists in E; destruct E as [z [Hz Hyz]]; apply String.eqb_eq in Hyz; subst z.
    rewrite IH; split; [tauto|].
    intros [[<-|H] Hn]; [contradiction | tauto].
  - assert (Hy : ~ In y seen).
    { intros Hin; assert (existsb (String.eqb y) seen = true)
        by (apply existsb_exists; exists y; split; [exact Hin | apply String.eqb_refl]);
      congruence. }
    simpl; rewrite IH; simpl; split.
    + intros [<-|[H Hn]]; [tauto|]; split; [tauto | intros Hs; apply Hn; tauto].
    + intros [[<-|H] Hn]; [tauto|].
      destruct (String.eqb_spec y x) as [<-|Hne]; [tauto|].
      right; split; [exact H | intros [Hyx|Hs]; [congruence | contradiction]].
Qed.

Lemma unique_from_nodup (l seen : list string) : NoDup (unique_from seen l).
Proof.
  revert seen; induction l as [|y l IH]; intros seen; simpl; [constructor|].
  destruct (existsb (String.eqb y) seen); [apply IH|].
  constructor; [rewrite unique_from_in; simpl; tauto | apply IH].
Qed.

(** X10: with no resume processed, the role select box offers each
    non-missing job title of the frame exactly once. *)
Theorem role_options_without_resume (database : Rank.data_frame) :
  has_column database "job_title" = true ->
  exists l, role_options None database = Done l /\ NoDup l /\
    (forall x, In x l <-> exists rw, In rw (Rank.rows database) /\ Rank.job_title rw = Some x).
Proof.
  intros H; unfold role_options, title_options; rewrite H.
  eexists; split; [reflexivity|]; split; [apply unique_from_nodup|].
  intros x; rewrite unique_from_in, in_flat_map; simpl; split.
  - intros [[rw [Hin Hx]] _]; exists rw; split; [exact Hin|].
    destruct (Rank.job_title rw); [destruct Hx as [->|[]]; reflexivity | destruct Hx].
  - intros [rw [Hin Hx]]; split; [|tauto].
    exists rw; split; [exact Hin | rewrite Hx; now left].
Qed.

Lemma role_options_without_resume_witness :
  has_column RankSpec.twin_df "job_title" = true /\
  exists l, role_options None RankSpec.twin_df = Done l /\ NoDup l /\
    (forall x, In x l <-> exists rw, In rw (Rank.rows RankSpec.twin_df) /\
                                     Rank.job_title rw = Some x).
Proof.
  assert (H : has_column RankSpec.twin_df "job_title" = true) by reflexivity.
  split; [exact H | exact (role_options_without_resume _ H)].
Defined.

(** *** The "Start Interview" button *)

Lemma level_questions_shape (experience_level : string) :
  In experience_level (map fst experience_questions) ->
  exists q rest, lookup experience_level experience_questions = Some (q :: rest) /\
                 length rest = 4.
Proof.
  simpl; intros H.
  repeat (destruct H as [<-|H]; [do 2 eexists; split; reflexivity|]); destruct H.
Qed.

Lemma role_descriptions (r : string) (rows : list Rank.row) :
  Forall (fun d => exists rw, In rw rows /\ Rank.job_title rw = Some r /\
                              Rank.job_description_text rw = Some d)
    (flat_map (fun rw =>
                 match Rank.job_title rw, Rank.job_description_text rw with
                 | Some t, Some d => if String.eqb t r then [d] else []
                 | _, _ => []
                 end) rows).
Proof.
  apply Forall_forall; intros d Hd; apply in_flat_map in Hd; destruct Hd as [rw [Hin Hd]].
  exists rw; split; [exact Hin|].
  destruct (Rank.job_title rw) as [t|]; [|destruct Hd].
  destruct (Rank.job_description_text rw) as [d'|]; [|destruct Hd].
  destruct (String.eqb_spec t r) as [->|]; [|destruct Hd].
  destruct Hd as [->|[]]; split; reflexivity.
Qed.

(** X11: pressing "Start Interview" with a level chosen in the select
    box, a frame holding both columns and a non-empty role starts the
    interview with the first of the level's five questions: it is logged
    and pending, and the queue holds the level's other four questions
    followed by descriptions of rows whose title is the role. *)
Theorem start_poses_level_question (s : Session.state) (experience_level r : string)
  (database : Rank.data_frame) :
  In experience_level (map fst experience_questions) ->
  has_column database "job_title" = true ->
  has_column database "job_description_text" = true ->
  Py.truthy r = true ->
  exists q rest ds,
    lookup experience_level experience_questions = Some (q :: rest) /\
    length rest = 4 /\
    Forall (fun d => exists rw, In rw (Rank.rows database) /\ Rank.job_title rw = Some r /\
                                Rank.job_description_text rw = Some d) ds /\
    press_start s experience_level (Some r) database
    = (Session.mk_state [(Session.Interviewer, q)] (Some r) (Some q) (rest ++ ds), None).
Proof.
  intros Hl Ht Hd Hr.
  destruct (level_questions_shape _ Hl) as [q [rest [Hq Hlen]]].
  do 3 eexists; split; [exact Hq | split; [exact Hlen | split; [apply role_descriptions|]]].
  unfold press_start, interview_questions; rewrite Hr, Hq, Ht, Hd; cbn.
  unfold Session.start; rewrite Hr; reflexivity.
Qed.

Definition sample_df : Rank.data_frame :=
  Rank.mk_df ["job_title"; "job_description_text"]
    [Rank.mk_row (Some "Data Analyst") (Some "Build dashboards in SQL");
     Rank.mk_row (Some "ML Engineer") (Some "Train models in Python")].

Lemma start_poses_level_question_witness :
  In "Internship" (map fst experience_questions) /\
  has_column sample_df "job_title" = true /\
  has_column sample_df "job_description_text" = true /\
  Py.truthy "ML Engineer" = true /\
  exists q rest ds,
    lookup "Internship" experience_questions = Some (q :: rest) /\
    length rest = 4 /\
    Forall (fun d => exists rw, In rw (Rank.rows sample_df) /\
                                Rank.job_title rw = Some "ML Engineer" /\
                                Rank.job_description_text rw = Some d) ds /\
    press_start Session.init "Internship" (Some "ML Engineer") sample_df
    = (Session.mk_state [(Session.Interviewer, q)] (Some "ML Engineer") (Some q)
                        (rest ++ ds), None).
Proof.
  assert (H1 : In "Internship" (map fst experience_questions)) by (simpl; tauto).
  assert (H2 : has_column sample_df "job_title" = true) by reflexivity.
  assert (H3 : has_column sample_df "job_description_text" = true) by reflexivity.
  assert (H4 : Py.truthy "ML Engineer" = true) by reflexivity.
  split; [exact H1 | split; [exact H2 | split; [exact H3 | split; [exact H4|]]]].
  exact (start_poses_level_question Session.init _ _ _ H1 H2 H3 H4).
Defined.

(** X12: on a sheet that has a [job_title] column but no
    [job_description_text] column, no resume ever narrows the role list
    (ranking returns [[]] and the select box lists the frame's titles),
    and pressing "Start Interview" with a non-empty role raises
    [KeyError] after the role and an empty log have been stored, the
    pending question and the queue being left as they were. *)
Theorem start_without_descriptions (database : Rank.data_frame) :
  has_column database "job_title" = true ->
  has_column database "job_description_text" = false ->
  (forall resume_summary, role_options resume_summary database = title_options database) /\
  (forall s experience_level r, Py.truthy r = true ->
     press_start s experience_level (Some r) database
     = (Session.mk_state [] (Some r) (Session.current_question s) (Session.transcripts s),
        Some (KeyError "job_description_text"))).
Proof.
  intros Ht Hd; split.
  - assert (Hg : Rank.degenerate database = true).
    { unfold Rank.degenerate; unfold has_column in Hd; rewrite Hd;
      rewrite orb_true_r; reflexivity. }
    intros [s|]; [|reflexivity]; unfold role_options.
    destruct (summary_truthy s); [|reflexivity].
    unfold Rank.match_resume_to_roles, Rank.match_resume_to_roles_with; rewrite Hg; reflexivity.
  - intros s lvl r Hr; unfold press_start, interview_questions; rewrite Hr, Ht, Hd; reflexivity.
Qed.

Definition titles_only_df : Rank.data_frame :=
  Rank.mk_df ["job_title"] [Rank.mk_row (Some "Data Analyst") None].

Lemma start_without_descriptions_witness :
  has_column titles_only_df "job_title" = true /\
  has_column titles_only_df "job_description_text" = false /\
  press_start Session.init "Internship" (Some "Data Analyst") titles_only_df
  = (Session.mk_state [] (Some "Data Analyst") None [],
     Some (KeyError "job_description_text")).
Proof.
  assert (H1 : has_column titles_only_df "job_title" = true) by reflexivity.
  assert (H2 : has_column titles_only_df "job_description_text" = false) by reflexivity.
  split; [exact H1 | split; [exact H2|]].
  exact (proj2 (start_without_descriptions _ H1 H2) Session.init "Internship" "Data Analyst"
           eq_refl).
Defined.

(** *** Role matching from the stored resume *)

Lemma fit_transform_raise (sw docs : list string) (e : Rank.exc) :
  Rank.fit_transform sw docs = Rank.Raise e -> e = Rank.ValueError Rank.empty_vocabulary_msg.
Proof.
  unfold Rank.fit_transform; destruct (Rank.vocabulary sw docs); [|discriminate].
  intros H; injection H; auto.
Qed.

(** X13: with a non-empty resume summary stored and a frame that passes
    the guard of [match_resume_to_roles], the role select box offers the
    titles of [min 3 n] distinct rows of the frame (n rows), or building
    the list raises the empty-vocabulary [ValueError], which [main] does
    not catch. *)
Theorem role_options_with_resume (s : Extract.result) (database : Rank.data_frame) :
  summary_truthy s = true ->
  Rank.degenerate database = false ->
  match role_options (Some s) database with
  | Done l => exists idx, l = map (fun i => nth i (Rank.roles_of database) "") idx /\
                NoDup idx /\ (forall i, In i idx -> i < length (Rank.rows database)) /\
                length l = Nat.min 3 (length (Rank.rows database))
  | Fail e => e = Ranking (Rank.ValueError Rank.empty_vocabulary_msg)
  end.
Proof.
  intros Hs Hd; unfold role_options; rewrite Hs; unfold Rank.match_resume_to_roles.
  destruct (Rank.match_resume_to_roles_with Rank.english_stop_words (resume_text_of s) database 3)
    as [l|e] eqn:E.
  - destruct (RankMore.rank_ok_indices _ _ _ _ _ Hd E)
      as [m [idx [_ [Hl [Hnd [Hlt [Hlen _]]]]]]].
    assert (Hn : length l = Nat.min 3 (length (Rank.rows database))).
    { rewrite Hl, length_map; apply Hlen; lia. }
    assert (Hr : Rank.rows database <> []).
    { intros Hr; unfold Rank.degenerate in Hd; rewrite Hr in Hd; discriminate. }
    destruct l as [|x l'].
    + destruct (Rank.rows database); [contradiction|]; simpl in Hn; lia.
    + exists idx; auto.
  - unfold Rank.match_resume_to_roles_with in E; rewrite Hd in E.
    destruct (Rank.fit_transform _ _) eqn:F; [discriminate|].
    injection E as <-; now rewrite (fit_transform_raise _ _ _ F).
Qed.

Lemma role_options_with_resume_witness :
  summary_truthy (Extract.Sentinel "Python models") = true /\
  Rank.degenerate sample_df = false /\
  match role_options (Some (Extract.Sentinel "Python models")) sample_df with
  | Done l => exists idx, l = map (fun i => nth i (Rank.roles_of sample_df) "") idx /\
                NoDup idx /\ (forall i, In i idx -> i < length (Rank.rows sample_df)) /\
                length l = Nat.min 3 (length (Rank.rows sample_df))
  | Fail e => e = Ranking (Rank.ValueError Rank.empty_vocabulary_msg)
  end.
Proof.
  assert (H1 : summary_truthy (Extract.Sentinel "Python models") = true) by reflexivity.
  assert (H2 : Rank.degenerate sample_df = false) by reflexivity.
  split; [exact H1 | split; [exact H2 | exact (role_options_with_resume _ _ H1 H2)]].
Defined.

(** *** The "Download" page *)

(** Whether a string contains the character [c]. *)
Fixpoint has_char (c : ascii) (s : string) : bool :=
  match s with
  | EmptyString => false
  | String x r => Ascii.eqb x c || has_char c r
  end.

Lemma has_char_app (c : ascii) (a b : string) :
  has_char c (a ++ b) = has_char c a || has_char c b.
Proof. induction a as [|x a IH]; simpl; [reflexivity | now rewrite IH, orb_assoc]. Qed.

Lemma split_no_char (c : ascii) (a : string) : has_char c a = false -> Py.split c a = [a].
Proof.
  induction a as [|x a IH]; simpl; [reflexivity|].
  intros H; apply orb_false_iff in H; destruct H as [Hx Ha]; rewrite Hx, (IH Ha); reflexivity.
Qed.

Lemma entry_line_no_newline (e : Session.speaker * string) :
  has_char Py.newline (snd e) = false -> has_char Py.newline (entry_line e) = false.
Proof.
  intros H; unfold entry_line; rewrite !has_char_app, H.
  destruct (fst e); reflexivity.
Qed.

(** X14: the transcript of a non-empty conversation whose messages
    contain no newline splits back, at its newlines, into one
    [f"{role}: {text}"] line per message, in order. *)
Theorem transcript_lines (conversation : list (Session.speaker * string)) :
  conversation <> [] ->
  Forall (fun e => has_char Py.newline (snd e) = false) conversation ->
  Py.split Py.newline (transcript conversation) = map entry_line conversation.
Proof.
  induction conversation as [|e conv IH]; intros Hne HF; [contradiction|].
  inversion HF as [|? ? He Hrest]; subst.
  destruct conv as [|e' conv'].
  - apply split_no_char, entry_line_no_newline, He.
  - change (transcript (e :: e' :: conv'))
      with (entry_line e ++ String Py.newline (transcript (e' :: conv')))%string.
    rewrite ExtractMore.split_app_sep, split_no_char by (apply entry_line_no_newline, He).
    rewrite IH by (discriminate || exact Hrest); reflexivity.
Qed.

Lemma transcript_lines_witness :
  [(Session.Interviewer, "Why SQL?"); (Session.Candidate, "It scales.")] <> [] /\
  Forall (fun e => has_char Py.newline (snd e) = false)
    [(Session.Interviewer, "Why SQL?"); (Session.Candidate, "It scales.")] /\
  Py.split Py.newline
    (transcript [(Session.Interviewer, "Why SQL?"); (Session.Candidate, "It scales.")])
  = ["Interviewer: Why SQL?"; "Candidate: It scales."].
Proof.
  assert (H1 : [(Session.Interviewer, "Why SQL?"); (Session.Candidate, "It scales.")] <> [])
    by discriminate.
  assert (H2 : Forall (fun e => has_char Py.newline (snd e) = false)
    [(Session.Interviewer, "Why SQL?"); (Session.Candidate, "It scales.")])
    by (repeat constructor).
  split; [exact H1 | split; [exact H2|]].
  exact (transcript_lines _ H1 H2).
Defined.

Lemma truthy_app_r (a b : string) : Py.truthy b = true -> Py.truthy (a ++ b) = true.
Proof. destruct a; [exact (fun H => H) | reflexivity]. Qed.

Lemma truthy_join_head (sep x : string) (r : list string) :
  Py.truthy x = true -> Py.truthy (Py.join sep (x :: r)) = true.
Proof. intros H; destruct r; [exact H|]; destruct x; [discriminate | reflexivity]. Qed.

Lemma app_empty_r (s : string) : (s ++ "")%string = s.
Proof. induction s as [|c s IH]; simpl; [reflexivity | now rewrite IH]. Qed.

(** X15: once a conversation exists, the page offers the transcript
    followed by a "Resume Summary:" block and a second file with the
    summary alone whenever a resume text has been processed (sentinel
    included, as its text is never empty); with no resume processed it
    offers the bare transcript only. *)
Theorem downloads_after_upload (s : Session.state) (text : string) :
  Session.conversation s <> [] ->
  Py.truthy (summary_text (Some (Extract.extract_resume_details text))) = true /\
  downloads s (Some (Extract.extract_resume_details text))
  = [("interview_summary.txt",
      (transcript (Session.conversation s) ++ two_nl ++ "Resume Summary:" ++ Py.nl ++
       summary_text (Some (Extract.extract_resume_details text)))%string);
     ("resume_summary.txt", summary_text (Some (Extract.extract_resume_details text)))] /\
  downloads s None = [("interview_summary.txt", transcript (Session.conversation s))].
Proof.
  intros Hc.
  assert (T : Py.truthy (summary_text (Some (Extract.extract_resume_details text))) = true).
  { unfold summary_text, Extract.extract_resume_details.
    destruct (fold_left Extract.step _ _) as [info cur].
    destruct (Extract.format info) as [|kv m]; [reflexivity|].
    cbn [summary_truthy map]; apply truthy_join_head, truthy_app_r; reflexivity. }
  split; [exact T|].
  destruct (Session.conversation s) as [|e c] eqn:E; [contradiction|].
  split; unfold downloads, full_report; rewrite E; cbv beta iota zeta.
  - rewrite T; reflexivity.
  - cbn -[transcript]; rewrite app_empty_r; reflexivity.
Qed.

Lemma downloads_after_upload_witness :
  Session.conversation (Session.mk_state [(Session.Interviewer, "Why SQL?")] None None [])
    <> [] /\
  downloads (Session.mk_state [(Session.Interviewer, "Why SQL?")] None None [])
    (Some (Extract.extract_resume_details "Skills"))
  = [("interview_summary.txt",
      (transcript [(Session.Interviewer, "Why SQL?")] ++ two_nl ++ "Resume Summary:" ++
       Py.nl ++ summary_text (Some (Extract.extract_resume_details "Skills")))%string);
     ("resume_summary.txt", summary_text (Some (Extract.extract_resume_details "Skills")))].
Proof.
  assert (H : Session.conversation
                (Session.mk_state [(Session.Interviewer, "Why SQL?")] None None []) <> [])
    by discriminate.
  split; [exact H|].
  exact (proj1 (proj2 (downloads_after_upload _ "Skills" H))).
Defined.

End AppSpec.
